(** * Browser automation core of the oracle CLI: a shallow embedding

    Embeds, in order: the cross-process browser lock ([src/browser/lock.ts]),
    the completion detector [waitForAttachmentCompletion] and the upload retry
    loop [uploadAttachmentFile] ([src/browser/actions/attachments.ts]),
    [verifyAttachmentsVisible] and the filename check of [runBrowserMode]
    ([src/browser/index.ts]), and [navigateToSavedSession]
    ([src/browser/sessionRecovery.ts]). *)

From Stdlib Require Import ZArith List String Ascii Bool Lia.
From Stdlib Require Import Relations.Relation_Operators.
Import ListNotations.
Open Scope Z_scope.

(** Results of effectful code that may throw. *)
Inductive Result (A : Type) : Type :=
| Ok (a : A)
| Err (e : string).
Arguments Ok {A} a.
Arguments Err {A} e.

(* ------------------------------------------------------------------ *)
(** ** Exclusivity lock ([acquireBrowserLock]) *)
Module Lock.

(** [BrowserLockPayload] as [readExistingLock] returns it.  A JSON number
    that is not an integer is [pid = None]. *)
Record BrowserLockPayload := { pid : option Z; createdAt : Z }.

(** Contents of the lock file: a payload that passes the [typeof] checks,
    or anything else (unparsable JSON, missing fields). *)
Inductive LockFile := Valid (p : BrowserLockPayload) | Corrupt.

(** The lock path on disk: absent or present with some contents. *)
Definition Disk := option LockFile.

Definition readExistingLock (d : Disk) : option BrowserLockPayload :=
  match d with
  | Some (Valid p) => Some p
  | _ => None
  end.

(** [isProcessAlive]; [alive] is the outcome of [process.kill(pid, 0)]. *)
Definition isProcessAlive (alive : Z -> bool) (p : option Z) : bool :=
  match p with
  | None => false
  | Some z => if z <=? 0 then false else alive z
  end.

Definition retryDelayMs : Z := 750.

(** [fs.rm(lockPath, { force: true })]: removes whatever is at the path,
    or fails (e.g. EPERM) when [rm_ok] is false. *)
Definition fs_rm (rm_ok : bool) (d : Disk) : Result Disk :=
  if rm_ok then Ok None else Err "rm failed"%string.

Definition pid_eqb (a b : option Z) : bool :=
  match a, b with
  | Some x, Some y => x =? y
  | _, _ => false
  end.

(** The release closure returned by [acquireBrowserLock]: [released] is
    the closure's flag, [me] is [process.pid]. *)
Definition release (me : Z) (rm_ok : bool) (released : bool) (d : Disk)
  : bool * Disk * Result unit :=
  if released then (true, d, Ok tt)
  else
    let body :=
      match readExistingLock d with
      | Some existing =>
          if pid_eqb (pid existing) (Some me) then fs_rm rm_ok d else Ok d
      | None => Ok d
      end in
    match body with
    | Ok d' => (true, d', Ok tt)
    | Err _ => (true, d, Ok tt) (* catch: ignore release failures *)
    end.

(** Program points of one acquiring process, one per [await] of the
    acquisition loop and of the release closure. *)
Inductive Pc :=
| Try          (* about to [writeFile(lockPath, payloadJson, { flag: "wx" })] *)
| ReadLock     (* the write failed with EEXIST; about to [readExistingLock] *)
| RemoveStale  (* owner found dead; about to [fs.rm] *)
| Backoff      (* about to [await delay(retryDelayMs)] and [continue] *)
| Held         (* the loop has broken out: lock acquired *)
| RelRead      (* release called; about to [readExistingLock] *)
| RelRemove    (* release saw its own pid; about to [fs.rm] *)
| Released
| TimedOut.    (* threw "Timed out waiting for another Oracle browser run" *)

Record Proc := {
  me : Z;          (* process.pid *)
  created : Z;     (* payload.createdAt *)
  timeoutMs : Z;
  deadline : Z;
  pc : Pc
}.

Definition with_pc (p : Proc) (c : Pc) : Proc :=
  {| me := me p; created := created p; timeoutMs := timeoutMs p;
     deadline := deadline p; pc := c |}.

Definition payload_of (p : Proc) : LockFile :=
  Valid {| pid := Some (me p); createdAt := created p |}.

(** One atomic step of a process at time [now]; returns the new process,
    the new disk and the time the step sleeps.  The [wx] write is atomic
    create-if-absent; the directory is assumed writable, so it fails only
    with EEXIST. *)
Definition step (alive : Z -> bool) (rm_ok : bool) (now : Z) (p : Proc) (d : Disk)
  : Proc * Disk * Z :=
  match pc p with
  | Try =>
      match d with
      | None => (with_pc p Held, Some (payload_of p), 0)
      | Some _ => (with_pc p ReadLock, d, 0)
      end
  | ReadLock =>
      match readExistingLock d with
      | None => (with_pc p Backoff, d, 0)
      | Some existing =>
          if negb (isProcessAlive alive (pid existing)) then (with_pc p RemoveStale, d, 0)
          else if (0 <? timeoutMs p) && (deadline p <? now) then (with_pc p TimedOut, d, 0)
          else (with_pc p Backoff, d, 0)
      end
  | RemoveStale =>
      (* a failed rm is caught; both paths fall through to the delay *)
      match fs_rm rm_ok d with
      | Ok d' => (with_pc p Backoff, d', 0)
      | Err _ => (with_pc p Backoff, d, 0)
      end
  | Backoff => (with_pc p Try, d, retryDelayMs)
  | Held => (with_pc p RelRead, d, 0)
  | RelRead =>
      match readExistingLock d with
      | Some existing =>
          if pid_eqb (pid existing) (Some (me p)) then (with_pc p RelRemove, d, 0)
          else (with_pc p Released, d, 0)
      | None => (with_pc p Released, d, 0)
      end
  | RelRemove =>
      match fs_rm rm_ok d with
      | Ok d' => (with_pc p Released, d', 0)
      | Err _ => (with_pc p Released, d, 0)
      end
  | Released | TimedOut => (p, d, 0)
  end.

(** A single process run alone, until it holds the lock or has thrown;
    returns its final program point, the disk and the clock. *)
Fixpoint acquire (alive : Z -> bool) (rm_ok : bool) (fuel : nat) (now : Z)
    (p : Proc) (d : Disk) : option (Pc * Disk * Z) :=
  match pc p with
  | Held | TimedOut => Some (pc p, d, now)
  | _ =>
      match fuel with
      | O => None
      | S f =>
          let '(p', d', dl) := step alive rm_ok now p d in
          acquire alive rm_ok f (now + dl) p' d'
      end
  end.

(** [n] steps of a single process, with the clock. *)
Fixpoint run (alive : Z -> bool) (rm_ok : bool) (n : nat) (now : Z)
    (p : Proc) (d : Disk) : Proc * Disk * Z :=
  match n with
  | O => (p, d, now)
  | S n' =>
      let '(p', d', dl) := step alive rm_ok now p d in
      run alive rm_ok n' (now + dl) p' d'
  end.

Fixpoint set_nth {A} (i : nat) (x : A) (l : list A) : list A :=
  match i, l with
  | O, _ :: t => x :: t
  | S i', h :: t => h :: set_nth i' x t
  | _, [] => []
  end.

(** Independent processes contending for one lock path: any process may
    take its next step at any time. *)
Inductive cstep (alive : Z -> bool) : Disk * list Proc -> Disk * list Proc -> Prop :=
| cstep_run : forall d ps i p rm_ok now p' d' dl,
    nth_error ps i = Some p ->
    step alive rm_ok now p d = (p', d', dl) ->
    cstep alive (d, ps) (d', set_nth i p' ps).

Definition reachable (alive : Z -> bool) := clos_refl_trans_1n _ (cstep alive).

Definition holds_lock (p : Proc) : bool :=
  match pc p with
  | Held | RelRead | RelRemove => true
  | _ => false
  end.

Definition holders (ps : list Proc) : nat := List.length (filter holds_lock ps).

End Lock.


(* ------------------------------------------------------------------ *)
(** ** Completion detector ([waitForAttachmentCompletion]) *)
Module Completion.

Inductive ButtonState := Missing | Disabled | Ready.

(** The object the page expression returns on each poll. *)
Record Probe := { state : ButtonState; uploading : bool; url : string }.

(** JavaScript truthiness of an optional string. *)
Definition truthy (o : option string) : bool :=
  match o with
  | Some s => negb (String.eqb s EmptyString)
  | None => false
  end.

(** [===] on [string | undefined]. *)
Definition opt_eqb (a b : option string) : bool :=
  match a, b with
  | Some x, Some y => String.eqb x y
  | None, None => true
  | _, _ => false
  end.

(** [value.state === "ready" && !value.uploading] *)
Definition is_ready (v : Probe) : bool :=
  match state v with
  | Ready => negb (uploading v)
  | _ => false
  end.

(** What the page and the recovery collaborators answer at a given time. *)
Record Env := {
  evaluate : Z -> option Probe;
    (* [Runtime.evaluate] of the probe expression; [None]: it throws *)
  href : Z -> option string;
    (* [getCurrentConversationUrl]; [None]: it throws *)
  recovery : option (Z -> option (bool * Z))
    (* [recoveryOptions]: [None] inside when [loadSessionState] yields no
       url, otherwise [navigateToSavedSession]'s answer and the time it took *)
}.

Inductive Outcome :=
| Confirmed (t : Z)  (* returned at time [t] *)
| TimedOutErr        (* threw "Attachments did not finish uploading before timeout." *)
| OutOfFuel.

(** One pass of the [while (Date.now() < deadline)] loop per unit of fuel.
    [Runtime.evaluate] takes no time; delays advance the clock. *)
Fixpoint wait_loop (env : Env) (deadline : Z) (fuel : nat) (now : Z)
    (lastUrl : option string) : Outcome :=
  match fuel with
  | O => OutOfFuel
  | S f =>
    if negb (now <? deadline) then TimedOutErr else
    match evaluate env now with
    | None => wait_loop env deadline f (now + 500 + 250) lastUrl
    | Some v =>
      if truthy lastUrl && truthy (Some (url v)) && negb (opt_eqb lastUrl (Some (url v)))
      then
        (* page refreshed or navigated *)
        match recovery env with
        | Some r =>
            match r now with
            | Some (true, dur) =>
                let t := now + dur + 2000 in
                match href env t with
                | Some u => wait_loop env deadline f t (Some u)
                | None => wait_loop env deadline f (t + 500 + 250) lastUrl
                end
            | Some (false, dur) => wait_loop env deadline f (now + dur + 1000) (Some (url v))
            | None => wait_loop env deadline f (now + 1000) (Some (url v))
            end
        | None => wait_loop env deadline f (now + 1000) (Some (url v))
        end
      else
        let lu := if negb (truthy lastUrl) && truthy (Some (url v))
                  then Some (url v) else lastUrl in
        if is_ready v then
          match evaluate env (now + 500) with
          | None => wait_loop env deadline f (now + 500 + 500 + 250) lu
          | Some c =>
              if is_ready c && opt_eqb (Some (url c)) lu then
                match evaluate env (now + 1500) with
                | None => wait_loop env deadline f (now + 1500 + 500 + 250) lu
                | Some fv =>
                    if is_ready fv && opt_eqb (Some (url fv)) lu
                    then Confirmed (now + 1500)
                    else wait_loop env deadline f (now + 1500 + 250) lu
                end
              else wait_loop env deadline f (now + 500 + 250) lu
          end
        else wait_loop env deadline f (now + 250) lu
    end
  end.

(** Every pass that does not return sleeps at least 250 ms, so at most
    [timeoutMs / 250 + 1] passes start before the deadline; one more unit
    of fuel covers the final deadline check. *)
Definition waitForAttachmentCompletion (env : Env) (timeoutMs now0 : Z) : Outcome :=
  wait_loop env (now0 + timeoutMs) (S (S (Z.to_nat (timeoutMs / 250)))) now0 None.

End Completion.


(* ------------------------------------------------------------------ *)
(** ** JavaScript string primitives on ASCII strings *)
Module JsString.

Definition lower_ascii (c : ascii) : ascii :=
  let n := nat_of_ascii c in
  if ((65 <=? n) && (n <=? 90))%nat then ascii_of_nat (n + 32) else c.

(** [String.prototype.toLowerCase] *)
Fixpoint toLowerCase (s : string) : string :=
  match s with
  | EmptyString => EmptyString
  | String c r => String (lower_ascii c) (toLowerCase r)
  end.

(** [s.includes(sub)] *)
Fixpoint includes (s sub : string) : bool :=
  String.prefix sub s ||
  match s with
  | EmptyString => false
  | String _ r => includes r sub
  end.

End JsString.

(* ------------------------------------------------------------------ *)
(** ** Upload retry loop ([uploadAttachmentFile]) *)
Module Upload.
Import JsString.

(** [dom.getDocument] and the [querySelector] loop over
    [FILE_INPUT_SELECTOR; GENERIC_FILE_INPUT_SELECTOR] in one attempt: a
    node found, no node, or a DevTools call throwing (outside the [try]). *)
Inductive Locate := Located | NotLocated | LocateThrows (msg : string).

(** [dom.setFileInputFiles] followed by [waitForAttachmentSelection]: the
    expected name shows up, the 10 s poll ends without it, or a call throws
    with the given message. *)
Inductive Assign := Registered | NotRegistered | AssignThrows (msg : string).

(** The page's answers, per attempt number. *)
Record UEnv := { locate : nat -> Locate; assign : nat -> Assign }.

Inductive UploadError :=
| LocateFailure      (* "Unable to locate ChatGPT file attachment input." *)
| SelectionMismatch  (* "Attachment did not register ... (selection mismatch)." *)
| DevtoolsError (msg : string).

(** Either the attachment is queued or an error is thrown; [delays] lists
    the sleeps taken, in order. *)
Inductive UploadOutcome :=
| Queued (delays : list Z)
| Thrown (e : UploadError) (delays : list Z).

Definition maxAttempts : nat := 3.
Definition staleMarker : string := "could not find node with given id".

(** After the loop: throw [lastError], or wait 2000 ms and log. *)
Definition finish (lastError : option UploadError) (ds : list Z) : UploadOutcome :=
  match lastError with
  | Some e => Thrown e ds
  | None => Queued (ds ++ [2000])
  end.

(** [for (let attempt = 1; attempt <= maxAttempts; attempt++)] *)
Fixpoint attempts (env : UEnv) (fuel attempt : nat) (lastError : option UploadError)
    (ds : list Z) : UploadOutcome :=
  match fuel with
  | O => finish lastError ds
  | S f =>
    if negb (attempt <=? maxAttempts)%nat then finish lastError ds else
    let next le := attempts env f (S attempt) le
                     (if (attempt <? maxAttempts)%nat
                      then ds ++ [300 * Z.of_nat attempt] else ds) in
    match locate env attempt with
    | LocateThrows m => Thrown (DevtoolsError m) ds
    | NotLocated => next (Some LocateFailure)
    | Located =>
        match assign env attempt with
        | Registered => finish None ds                (* lastError = undefined; break *)
        | NotRegistered => next (Some SelectionMismatch)
        | AssignThrows m =>
            if includes (toLowerCase m) staleMarker && (attempt <? maxAttempts)%nat
            then next (Some (DevtoolsError m))
            else finish (Some (DevtoolsError m)) ds   (* break *)
        end
    end
  end.

Definition uploadAttachmentFile (dom_available : bool) (env : UEnv) : UploadOutcome :=
  if dom_available then attempts env maxAttempts 1 None []
  else Thrown (DevtoolsError "DOM domain unavailable while uploading attachments.") [].

(** The retry policy as the amended claim words it: each cycle succeeds,
    fails in a retryable way (locate failure, registration mismatch,
    stale-element error) or fails fatally (any other DevTools error). *)
Inductive Cycle := CycleOk | CycleRetry (e : UploadError) | CycleAbort (e : UploadError).

Definition cycle (env : UEnv) (a : nat) : Cycle :=
  match locate env a with
  | LocateThrows m => CycleAbort (DevtoolsError m)
  | NotLocated => CycleRetry LocateFailure
  | Located =>
      match assign env a with
      | Registered => CycleOk
      | NotRegistered => CycleRetry SelectionMismatch
      | AssignThrows m =>
          if includes (toLowerCase m) staleMarker
          then CycleRetry (DevtoolsError m) else CycleAbort (DevtoolsError m)
      end
  end.

(** Run cycle [a]; after a retryable failure with [left] attempts left,
    sleep [300 * a] ms and run cycle [a + 1]; when none are left, throw. *)
Fixpoint retry_policy (left a : nat) (c : nat -> Cycle) (ds : list Z) : UploadOutcome :=
  match c a with
  | CycleOk => Queued (ds ++ [2000])
  | CycleAbort e => Thrown e ds
  | CycleRetry e =>
      match left with
      | O => Thrown e ds
      | S l => retry_policy l (S a) c (ds ++ [300 * Z.of_nat a])
      end
  end.

End Upload.


(* ------------------------------------------------------------------ *)
(** ** Filename normalisation ([normalizeFilename] in [runBrowserMode]) *)
Module Names.
Import JsString.

(** [\s] and [String.prototype.trim] on ASCII: tab, LF, VT, FF, CR, space. *)
Definition is_ws (c : ascii) : bool :=
  let n := nat_of_ascii c in ((9 <=? n) && (n <=? 13))%nat || (n =? 32)%nat.

Definition is_digit (c : ascii) : bool :=
  let n := nat_of_ascii c in ((48 <=? n) && (n <=? 57))%nat.

Definition is_quote (c : ascii) : bool :=
  (Ascii.eqb c "034"%char) || (Ascii.eqb c "'").

Fixpoint trimStart (s : string) : string :=
  match s with
  | EmptyString => EmptyString
  | String c r => if is_ws c then trimStart r else s
  end.

Fixpoint trimEnd (s : string) : string :=
  match s with
  | EmptyString => EmptyString
  | String c r =>
      let r' := trimEnd r in
      if is_ws c && String.eqb r' EmptyString then EmptyString else String c r'
  end.

Definition trim (s : string) : string := trimEnd (trimStart s).

Fixpoint drop_last_quote (s : string) : string :=
  match s with
  | EmptyString => EmptyString
  | String c EmptyString => if is_quote c then EmptyString else s
  | String c r => String c (drop_last_quote r)
  end.

(** The replace of one leading and one trailing quote character (double
    or single) by the empty string. *)
Definition strip_wrapping_quotes (s : string) : string :=
  drop_last_quote
    (match s with
     | String c r => if is_quote c then r else s
     | EmptyString => s
     end).

(** [.replace(/\s+/g, " ")]; [in_ws]: inside a run already replaced. *)
Fixpoint collapse_ws (s : string) (in_ws : bool) : string :=
  match s with
  | EmptyString => EmptyString
  | String c r =>
      if is_ws c then
        if in_ws then collapse_ws r true else String " " (collapse_ws r true)
      else String c (collapse_ws r false)
  end.

(** Does the whole of [s] match [\(\d+\)] after the [(] : [\d+\)$]. *)
Fixpoint digits_close (s : string) (seen : bool) : bool :=
  match s with
  | EmptyString => false
  | String c r =>
      if is_digit c then digits_close r true
      else Ascii.eqb c ")" && seen && String.eqb r EmptyString
  end.

(** Does the whole of [s] match [\s*\(\d+\)$]. *)
Fixpoint dup_suffix (s : string) : bool :=
  match s with
  | EmptyString => false
  | String c r => if is_ws c then dup_suffix r else Ascii.eqb c "(" && digits_close r false
  end.

(** The replace of the regex [\s*\(\d+\)$] by the empty string: cut at
    the leftmost position where the
    rest of the string matches. *)
Fixpoint strip_dup_suffix (s : string) : string :=
  if dup_suffix s then EmptyString
  else match s with
       | EmptyString => EmptyString
       | String c r => String c (strip_dup_suffix r)
       end.

Definition normalizeFilename (filename : string) : string :=
  trim (strip_dup_suffix (collapse_ws (strip_wrapping_quotes (trim (toLowerCase filename))) false)).

Fixpoint trim_slashes_end (s : string) : string :=
  match s with
  | EmptyString => EmptyString
  | String c r =>
      let r' := trim_slashes_end r in
      if Ascii.eqb c "/" && String.eqb r' EmptyString then EmptyString else String c r'
  end.

Fixpoint last_segment (s cur : string) : string :=
  match s with
  | EmptyString => cur
  | String c r => if Ascii.eqb c "/" then last_segment r EmptyString else last_segment r (cur ++ String c EmptyString)
  end.

(** POSIX [path.basename]. *)
Definition basename (p : string) : string := last_segment (trim_slashes_end p) EmptyString.

End Names.

(* ------------------------------------------------------------------ *)
(** ** Visible attachments ([verifyAttachmentsVisible]) and the check of
    [runBrowserMode] *)
Module Visible.
Import Names.

(** The page script pushes one of its three [ATTACHMENT_SELECTORS]. *)
Inductive AttachmentSelector := PillSel | RemoveButtonSel | ContainerSel.

(** A double quote, as a one-character string. *)
Definition dq : string := String "034"%char EmptyString.

Definition selector_string (s : AttachmentSelector) : string :=
  match s with
  | PillSel => "[data-testid*=" ++ dq ++ "attachment-pill" ++ dq ++ "]"
  | RemoveButtonSel => "button[aria-label*=" ++ dq ++ "Remove attachment" ++ dq ++ "]"
  | ContainerSel => "[data-testid*=" ++ dq ++ "file-attachment-container" ++ dq ++ "]"
  end.

Record VisibleAttachment := {
  filename : string;
  selector : AttachmentSelector;
  outerHTML : string
}.

(** The entries of [snapshotKey]: [`${att.filename}::${att.selector}`].
    [JSON.stringify] of an array of strings is injective, so two keys are
    [===] exactly when these lists are equal. *)
Definition snapshotKey (atts : list VisibleAttachment) : list string :=
  map (fun att => (filename att ++ "::" ++ selector_string (selector att))%string) atts.

Definition key_eqb (a : list string) (b : option (list string)) : bool :=
  match b with
  | Some k => if list_eq_dec string_dec a k then true else false
  | None => false
  end.

(** The polling loop over the polls started before the deadline; a poll is
    [None] when [Runtime.evaluate] throws (caught and logged) and otherwise
    the array the page returns. *)
Fixpoint verify_loop (polls : list (option (list VisibleAttachment)))
    (lastSnapshotKey : option (list string)) (stableIterations : nat)
  : list VisibleAttachment :=
  match polls with
  | [] => []  (* timeout reached *)
  | poll :: rest =>
      match poll with
      | Some ((_ :: _) as attachments) =>
          let key := snapshotKey attachments in
          let '(lk, st) := if key_eqb key lastSnapshotKey
                           then (lastSnapshotKey, S stableIterations)
                           else (Some key, 0%nat) in
          if (2 <=? st)%nat then attachments else verify_loop rest lk st
      | _ => verify_loop rest lastSnapshotKey stableIterations
      end
  end.

Definition verifyAttachmentsVisible (polls : list (option (list VisibleAttachment)))
  : list VisibleAttachment :=
  verify_loop polls None 0.

Definition mem (x : string) (l : list string) : bool := existsb (String.eqb x) l.

(** The outcome of the check in [runBrowserMode]: it logs [missingFiles]
    and [extraFiles] and throws, or logs "Verified n/m". *)
Inductive Verdict :=
| VerifiedOk (visible expected : nat)
| VerificationFailed (missing extra : list string).

Definition check_attachments (paths : list string) (visible : list VisibleAttachment) : Verdict :=
  let expectedFilenames := map (fun p => normalizeFilename (basename p)) paths in
  let visibleFilenames := map (fun a => normalizeFilename (filename a)) visible in
  let missingFiles := filter (fun e => negb (mem e visibleFilenames)) expectedFilenames in
  let extraFiles := filter (fun v => negb (mem v expectedFilenames)) visibleFilenames in
  if (0 <? List.length missingFiles)%nat
     || ((0 <? List.length extraFiles)%nat
         && negb (List.length visibleFilenames =? List.length expectedFilenames)%nat)
  then VerificationFailed missingFiles extraFiles
  else VerifiedOk (List.length visibleFilenames) (List.length expectedFilenames).

(** Visual verification step of the attachment pipeline. *)
Definition attachment_pipeline (paths : list string)
    (polls : list (option (list VisibleAttachment))) : Verdict :=
  check_attachments paths (verifyAttachmentsVisible polls).

(** The debounce in the words of the amended claim: among the non-empty
    samples, in order, the first one that completes three consecutive
    samples with the same filenames and selectors. *)
Definition samples (polls : list (option (list VisibleAttachment)))
  : list (list VisibleAttachment) :=
  flat_map (fun o => match o with Some ((_ :: _) as l) => [l] | _ => [] end) polls.

Definition view (atts : list VisibleAttachment) : list (string * AttachmentSelector) :=
  map (fun a => (filename a, selector a)) atts.

Definition sel_eq_dec (a b : AttachmentSelector) : {a = b} + {a <> b}.
Proof. decide equality. Defined.

Definition entry_eq_dec (a b : string * AttachmentSelector) : {a = b} + {a <> b}.
Proof. decide equality; [apply sel_eq_dec | apply string_dec]. Defined.

Definition view_eqb (a b : list VisibleAttachment) : bool :=
  if list_eq_dec entry_eq_dec (view a) (view b) then true else false.

Fixpoint find_triple (l : list (list VisibleAttachment)) : list VisibleAttachment :=
  match l with
  | a :: ((b :: c :: _) as rest) =>
      if view_eqb a b && view_eqb b c then c else find_triple rest
  | _ => []
  end.

End Visible.


(* ------------------------------------------------------------------ *)
(** ** Session recovery ([extractConversationId], [navigateToSavedSession]) *)
Module Recovery.
Import Completion.

(** The character class [a-zA-Z0-9-]. *)
Definition is_id_char (c : ascii) : bool :=
  let n := nat_of_ascii c in
  ((97 <=? n) && (n <=? 122))%nat || ((65 <=? n) && (n <=? 90))%nat
  || ((48 <=? n) && (n <=? 57))%nat || (n =? 45)%nat.

(** The greedy [[a-zA-Z0-9-]+] run at the start of [s]. *)
Fixpoint id_run (s : string) : string :=
  match s with
  | EmptyString => EmptyString
  | String c r => if is_id_char c then String c (id_run r) else EmptyString
  end.

(** One alternative [\/k\/([a-zA-Z0-9-]+)] tried at the start of [s]. *)
Definition route_alt (k : ascii) (s : string) : option string :=
  match s with
  | String a (String b (String c rest)) =>
      if Ascii.eqb a "/" && Ascii.eqb b k && Ascii.eqb c "/" then
        match id_run rest with
        | EmptyString => None
        | id => Some id
        end
      else None
  | _ => None
  end.

(** [url.match(/\/c\/([a-zA-Z0-9-]+)|\/g\/([a-zA-Z0-9-]+)/)] and then
    [match?.[1] || match?.[2]]: the leftmost position where an alternative
    matches, the first alternative first. *)
Fixpoint extractConversationId (url : string) : option string :=
  match route_alt "c" url with
  | Some id => Some id
  | None =>
      match route_alt "g" url with
      | Some id => Some id
      | None =>
          match url with
          | EmptyString => None
          | String _ r => extractConversationId r
          end
      end
  end.

(** The fields of [BrowserSession] that recovery reads. *)
Record BrowserSession := { session_url : string; conversationId : option string }.

(** What [saveSessionState] records for a location. *)
Definition saved_session (url : string) : BrowserSession :=
  {| session_url := url; conversationId := extractConversationId url |}.

Record NavEnv := {
  navigate_ok : bool;
    (* [Page.navigate] resolves *)
  ready_polls : list (option string);
    (* [document.readyState] polls started before the 30 s deadline; [None]: throws *)
  current_url : option (option string)
    (* [getCurrentConversationUrl]: [None] throws; [Some None]: the value is undefined *)
}.

Fixpoint wait_ready (polls : list (option string)) : Result unit :=
  match polls with
  | [] => Ok tt
  | None :: _ => Err "Runtime.evaluate failed"
  | Some v :: rest =>
      if String.eqb v "complete" || String.eqb v "interactive" then Ok tt
      else wait_ready rest
  end.

Definition navigateToSavedSession (env : NavEnv) (session : BrowserSession) : bool :=
  let body : Result bool :=
    if negb (navigate_ok env) then Err "Page.navigate failed" else
    match wait_ready (ready_polls env) with
    | Err e => Err e
    | Ok _ =>
        match current_url env with
        | None => Err "Runtime.evaluate failed"
        | Some None => Err "TypeError: url is undefined"
        | Some (Some currentUrl) =>
            let currentConvId := extractConversationId currentUrl in
            if truthy (conversationId session) && opt_eqb currentConvId (conversationId session)
            then Ok true
            else if String.eqb currentUrl (session_url session) then Ok true
            else Ok false
        end
    end in
  match body with
  | Ok b => b
  | Err _ => false (* catch: log and report failure *)
  end.

(** Navigation, the load wait and the location read all went through,
    and the page is at [u]. *)
Definition reached (env : NavEnv) (u : string) : Prop :=
  navigate_ok env = true /\ wait_ready (ready_polls env) = Ok tt /\
  current_url env = Some (Some u).

End Recovery.


(* ------------------------------------------------------------------ *)
(** ** Conversation URL capture ([waitForConversationUrl]) *)
Module ConvUrl.
Import JsString Completion.




End ConvUrl.

(* ------------------------------------------------------------------ *)
(** ** Thinking-status monitor ([startThinkingStatusMonitor]) *)
Module Monitor.
Import Completion.

(** The closure state; [logged] lists the status messages handed to
    [formatThinkingLog], oldest first. *)
Record MState := {
  stopped : bool;
  pending : bool;
  lastMessage : option string;
  logged : list string
}.

Definition monitor_init : MState :=
  {| stopped := false; pending := false; lastMessage := None; logged := [] |}.

(** The interval callback up to its [await readThinkingStatus(Runtime)]. *)
Definition tick (s : MState) : MState :=
  if stopped s || pending s then s
  else {| stopped := stopped s; pending := true; lastMessage := lastMessage s;
          logged := logged s |}.

(** The rest of the callback once [readThinkingStatus] resolved with
    [nextMessage] ([null] is [None]); it catches its own errors, and the
    diagnostics probe only changes the suffix of the logged line. *)
Definition read_done (s : MState) (nextMessage : option string) : MState :=
  match nextMessage with
  | Some m =>
      if truthy (Some m) && negb (opt_eqb (Some m) (lastMessage s)) then
        {| stopped := stopped s; pending := false; lastMessage := Some m;
           logged := logged s ++ [m] |}
      else {| stopped := stopped s; pending := false; lastMessage := lastMessage s;
              logged := logged s |}
  | None =>
      {| stopped := stopped s; pending := false; lastMessage := lastMessage s;
         logged := logged s |}
  end.

(** The returned stop function ([clearInterval] included: a later tick
    would return at once anyway). *)
Definition stop (s : MState) : MState :=
  if stopped s then s
  else {| stopped := true; pending := pending s; lastMessage := lastMessage s;
          logged := logged s |}.

(** The event loop: the interval fires, a pending read resolves, or the
    caller stops the monitor, in any order. *)
Inductive mstep : MState -> MState -> Prop :=
| mstep_tick : forall s, mstep s (tick s)
| mstep_done : forall s next, pending s = true -> mstep s (read_done s next)
| mstep_stop : forall s, mstep s (stop s).

Definition mreach := clos_refl_trans_1n _ mstep.

End Monitor.

(* ------------------------------------------------------------------ *)
(** ** Set-up and clean-up of [runBrowserMode] *)
Module RunMode.
Import JsString Names.

Definition isWebSocketClosureError (message : string) : bool :=
  let m := toLowerCase message in
  includes m "websocket connection closed" || includes m "websocket is closed"
  || includes m "websocket error" || includes m "target closed".

(** How the [try] block ends: [connectToChrome] rejected (no client), or,
    with a client, the answer or the error a later step threw. *)
Inductive BodyOutcome :=
| ConnectFailed (msg : string)
| Answered (answer : string)
| Failed (msg : string).

Record RunEnv := {
  prompt : option string;   (* options.prompt *)
  mkdtemp_ok : bool;        (* mkdtemp resolves *)
  lock_ok : bool;           (* acquireBrowserLock resolves *)
  launch_ok : bool;         (* launchChrome resolves *)
  hooks_ok : bool;          (* registerTerminationHooks returns (its throw is caught) *)
  body : BodyOutcome;
  disconnected : bool;      (* the client's "disconnect" event has fired when the run ends *)
  keepBrowser : bool        (* config.keepBrowser *)
}.

(** Side effects, in the order they happen. *)
Inductive Effect :=
| MakeProfile | TakeLock | LaunchChrome
| ReleaseLock | CloseClient | RemoveHooks | KillChrome | RemoveProfile.

Definition chrome_closed_msg : string :=
  "Chrome window closed before Oracle finished. Please keep it open until completion.".

Definition runBrowserMode (env : RunEnv) : Result string * list Effect :=
  let promptText := match prompt env with Some p => trim p | None => EmptyString end in
  if String.eqb promptText EmptyString then
    (Err "Prompt text is required when using browser mode.", [])
  else if negb (mkdtemp_ok env) then (Err "mkdtemp rejected", [])
  else if negb (lock_ok env) then (Err "acquireBrowserLock rejected", [MakeProfile])
  else if negb (launch_ok env) then (Err "launchChrome rejected", [MakeProfile; TakeLock])
  else
    let has_client := match body env with ConnectFailed _ => false | _ => true end in
    (* connectionClosedUnexpectedly: set by the "disconnect" listener *)
    let lost := has_client && disconnected env in
    let '(result, closed) :=
      match body env with
      | Answered a => (Ok a, lost)
      | ConnectFailed m | Failed m =>
          let socketClosed := lost || isWebSocketClosureError m in
          (if socketClosed then Err chrome_closed_msg else Err m, lost || socketClosed)
      end in
    (* finally *)
    let cleanup :=
      [ReleaseLock]
      ++ (if negb closed && has_client then [CloseClient] else [])
      ++ (if hooks_ok env then [RemoveHooks] else [])
      ++ (if keepBrowser env then []
          else (if closed then [] else [KillChrome]) ++ [RemoveProfile]) in
    (result, [MakeProfile; TakeLock; LaunchChrome] ++ cleanup).

End RunMode.

(* ================================================================== *)
(** * Theorems *)

Module LockFacts.
Import Lock.

Definition alive12 (z : Z) : bool := (z =? 1) || (z =? 2).

Definition contender (m : Z) : Proc :=
  {| me := m; created := 100; timeoutMs := 30 * 60000; deadline := 100 + 30 * 60000;
     pc := Try |}.

Definition stale7 : Disk := Some (Valid {| pid := Some 7; createdAt := 0 |}).

Ltac sched i :=
  eapply rt1n_trans;
  [ eapply (cstep_run _ _ _ i _ true 0); reflexivity | cbn ].

(** C1 (code_bug): two live contenders [1] and [2] starting on a stale lock
    left by dead pid [7] can both end up holding the lock: [2] removes the
    stale file and creates its own, then [1], which had read the stale
    record earlier, removes [2]'s live lock with its unconditional [fs.rm]
    and creates its own. *)
Theorem lock_stale_race_two_holders :
  alive12 1 = true /\ alive12 2 = true /\
  reachable alive12 (stale7, [contender 1; contender 2])
    (Some (payload_of (contender 1)),
     [with_pc (contender 1) Held; with_pc (contender 2) Held]) /\
  holders [with_pc (contender 1) Held; with_pc (contender 2) Held] = 2%nat.
Proof.
  split; [reflexivity|]. split; [reflexivity|]. split; [|reflexivity].
  unfold reachable.
  sched 0%nat. sched 0%nat. sched 1%nat. sched 1%nat. sched 1%nat. sched 1%nat.
  sched 1%nat. sched 0%nat. sched 0%nat. sched 0%nat.
  apply rt1n_refl.
Qed.


Definition owns (m : Z) (d : Disk) : Prop :=
  exists c, readExistingLock d = Some {| pid := Some m; createdAt := c |}.

(** C3: the release closure never throws; a second call is a no-op whatever
    the disk holds by then, so calling it twice has the effect of calling it
    once; the only change it ever makes is deleting a lock file that records
    the caller's own pid, and when that deletion succeeds the file is gone. *)
Theorem release_idempotent_and_owner_only : forall m rm1 d,
  let '(r1, d1, res1) := release m rm1 false d in
  res1 = Ok tt /\
  (forall rm2 d', release m rm2 r1 d' = (r1, d', Ok tt)) /\
  (d1 = d \/ (d1 = None /\ owns m d)) /\
  (owns m d -> rm1 = true -> d1 = None).
Proof.
  intros m rm1 d.
  unfold release, owns.
  destruct (readExistingLock d) as [[q c]|] eqn:Er; cbn.
  - destruct (pid_eqb q (Some m)) eqn:Ep.
    + destruct q as [z|]; [|discriminate]. cbn in Ep. apply Z.eqb_eq in Ep. subst z.
      destruct rm1; cbn; refine (conj eq_refl (conj (fun _ _ => eq_refl) (conj _ _))).
      * right. split; [reflexivity| exists c; reflexivity].
      * intros _ _. reflexivity.
      * left. reflexivity.
      * intros _ H. discriminate.
    + refine (conj eq_refl (conj (fun _ _ => eq_refl) (conj (or_introl eq_refl) _))).
      intros [c' H] _. inversion H; subst. cbn in Ep. rewrite Z.eqb_refl in Ep. discriminate.
  - refine (conj eq_refl (conj (fun _ _ => eq_refl) (conj (or_introl eq_refl) _))).
    intros [c' H]. discriminate.
Qed.

(** C4 (amended): against a structurally valid lock whose owner is dead and
    with no other contender, acquisition removes the file, sleeps the same
    750 ms retry delay as every other retry, and then holds the lock, with
    no deadline check on this path (for every [timeoutMs]); when the removal
    fails the process is back at the write attempt, with the file untouched,
    after the same 750 ms. *)
Theorem stale_lock_reclaimed_after_backoff : forall alive p q c now,
  pc p = Try ->
  isProcessAlive alive q = false ->
  acquire alive true 5 now p (Some (Valid {| pid := q; createdAt := c |}))
    = Some (Held, Some (payload_of p), now + retryDelayMs) /\
  run alive false 4 now p (Some (Valid {| pid := q; createdAt := c |}))
    = (with_pc p Try, Some (Valid {| pid := q; createdAt := c |}), now + retryDelayMs).
Proof.
  intros alive [m cr t dl pc0] q c now Hpc Hdead. cbn in Hpc. subst pc0.
  split; cbn -[isProcessAlive]; rewrite Hdead; cbn; f_equal; f_equal; lia.
Qed.

Lemma stale_lock_reclaimed_after_backoff_witness :
  pc (contender 1) = Try /\ isProcessAlive alive12 (Some 7) = false /\
  acquire alive12 true 5 0 (contender 1) stale7
    = Some (Held, Some (payload_of (contender 1)), 0 + retryDelayMs).
Proof.
  split; [reflexivity|]. split; [reflexivity|].
  exact (proj1 (stale_lock_reclaimed_after_backoff alive12 (contender 1) (Some 7) 0 0
                 eq_refl eq_refl)).
Defined.

(** C4 (counterexample): with the stale record of dead pid [7], the lock is
    acquired 750 ms after the first attempt, not immediately: file
    operations take no time in the model, so an immediate retry would hold
    the lock at time 0. *)
Lemma stale_lock_retry_waits :
  acquire alive12 true 10 0 (contender 1) stale7
    = Some (Held, Some (payload_of (contender 1)), 750) /\
  (forall d', acquire alive12 true 10 0 (contender 1) stale7 <> Some (Held, d', 0)).
Proof.
  assert (E : acquire alive12 true 10 0 (contender 1) stale7
              = Some (Held, Some (payload_of (contender 1)), 750)) by reflexivity.
  split; [exact E|]. intros d' H. rewrite E in H. inversion H.
Qed.

End LockFacts.

Module CompletionFacts.
Import Completion.

Lemma is_ready_inv : forall v, is_ready v = true ->
  v = {| state := Ready; uploading := false; url := url v |}.
Proof.
  intros [st up u]; unfold is_ready; cbn.
  destruct st; try discriminate. destruct up; [discriminate|reflexivity].
Qed.

Lemma opt_eqb_some : forall a b, opt_eqb (Some a) b = true -> b = Some a.
Proof.
  intros a [b|]; cbn; [intros H; apply String.eqb_eq in H; subst; reflexivity|discriminate].
Qed.

Lemma wait_loop_triple : forall env deadline fuel now lastUrl t,
  (forall t' v, evaluate env t' = Some v -> url v <> EmptyString) ->
  wait_loop env deadline fuel now lastUrl = Confirmed t ->
  exists t0 u, t = t0 + 1500 /\
    evaluate env t0 = Some {| state := Ready; uploading := false; url := u |} /\
    evaluate env (t0 + 500) = Some {| state := Ready; uploading := false; url := u |} /\
    evaluate env (t0 + 1500) = Some {| state := Ready; uploading := false; url := u |}.
Proof.
  intros env deadline fuel. induction fuel as [|f IH]; intros now lastUrl t Hne H.
  - discriminate.
  - cbn [wait_loop] in H.
    destruct (negb (now <? deadline)); [discriminate|].
    destruct (evaluate env now) as [v|] eqn:Ev; [|eapply IH; eauto].
    destruct (truthy lastUrl && truthy (Some (url v)) && negb (opt_eqb lastUrl (Some (url v))))
      eqn:Enav.
    + destruct (recovery env) as [r|]; [|eapply IH; eauto].
      destruct (r now) as [[[|] dur]|]; [|eapply IH; eauto|eapply IH; eauto].
      destruct (href env (now + dur + 2000)); eapply IH; eauto.
    + set (lu := if negb (truthy lastUrl) && truthy (Some (url v))
                 then Some (url v) else lastUrl) in H.
      assert (Hlu : lu = Some (url v)).
      { subst lu. assert (Hu : truthy (Some (url v)) = true).
        { cbn. apply negb_true_iff, String.eqb_neq. eapply Hne; eauto. }
        rewrite Hu in Enav |- *.
        destruct lastUrl as [l|]; cbn in Enav |- *; [|reflexivity].
        destruct (String.eqb l EmptyString) eqn:El; cbn in Enav |- *.
        - reflexivity.
        - destruct (String.eqb l (url v)) eqn:Elv; [|discriminate].
          apply String.eqb_eq in Elv. subst. reflexivity. }
      destruct (is_ready v) eqn:Rv; [|eapply IH; eauto].
      destruct (evaluate env (now + 500)) as [c|] eqn:Ec; [|eapply IH; eauto].
      destruct (is_ready c && opt_eqb (Some (url c)) lu) eqn:Rc; [|eapply IH; eauto].
      destruct (evaluate env (now + 1500)) as [fv|] eqn:Ef; [|eapply IH; eauto].
      destruct (is_ready fv && opt_eqb (Some (url fv)) lu) eqn:Rf; [|eapply IH; eauto].
      inversion H; subst t.
      apply andb_true_iff in Rc as [Rc Uc]. apply andb_true_iff in Rf as [Rf Uf].
      rewrite Hlu in Uc, Uf. apply opt_eqb_some in Uc. apply opt_eqb_some in Uf.
      inversion Uc as [Uc']. inversion Uf as [Uf'].
      exists now, (url v). split; [reflexivity|].
      pose proof (is_ready_inv v Rv). pose proof (is_ready_inv c Rc).
      pose proof (is_ready_inv fv Rf).
      repeat split; congruence.
Qed.

(** C2: the completion wait declares success only after three checks, at
    times [t0], [t0 + 500] and [t0 + 1500] with no other check in between,
    all returned [ready], not uploading, at one and the same location; a
    probe that reads busy at [t0 + 500] therefore never confirms the cycle
    started at [t0].  (The page location [window.location.href] is never
    the empty string.) *)
Theorem completion_needs_three_steady_checks : forall env timeoutMs now0 t,
  (forall t' v, evaluate env t' = Some v -> url v <> EmptyString) ->
  waitForAttachmentCompletion env timeoutMs now0 = Confirmed t ->
  exists t0 u, t = t0 + 1500 /\
    evaluate env t0 = Some {| state := Ready; uploading := false; url := u |} /\
    evaluate env (t0 + 500) = Some {| state := Ready; uploading := false; url := u |} /\
    evaluate env (t0 + 1500) = Some {| state := Ready; uploading := false; url := u |}.
Proof.
  intros env timeoutMs now0 t Hne H. eapply wait_loop_triple; eauto.
Qed.

Definition chat_url : string := "https://chatgpt.com/c/abc123".

(** A page that reads busy at 0 and 500 ms and ready from 750 ms on. *)
Definition settling_env : Env :=
  {| evaluate := fun t => Some {| state := if t <? 750 then Disabled else Ready;
                                  uploading := false; url := chat_url |};
     href := fun _ => Some chat_url;
     recovery := None |}.

Lemma completion_needs_three_steady_checks_witness :
  exists t0 u, 2250 = t0 + 1500 /\
    evaluate settling_env t0 = Some {| state := Ready; uploading := false; url := u |} /\
    evaluate settling_env (t0 + 500) = Some {| state := Ready; uploading := false; url := u |} /\
    evaluate settling_env (t0 + 1500) = Some {| state := Ready; uploading := false; url := u |}.
Proof.
  apply (completion_needs_three_steady_checks settling_env 30000 0 2250).
  - intros t' v H. cbn in H. inversion H; subst. cbn. discriminate.
  - vm_compute. reflexivity.
Defined.

End CompletionFacts.

Module UploadFacts.
Import JsString Upload.

(** C5 (amended): with the DOM domain available, [uploadAttachmentFile] is
    the retry policy over at most [maxAttempts = 3] cycles: a locate
    failure, a registration mismatch and a stale-element error are all
    retried after [300 ms * attempt]; any other DevTools error aborts at once;
    the last failure is thrown when the attempts run out. *)
Theorem upload_is_retry_policy : forall env,
  uploadAttachmentFile true env = retry_policy 2 1 (cycle env) [].
Proof.
  intros env. unfold uploadAttachmentFile, retry_policy, cycle, attempts, finish.
  cbn -[includes toLowerCase].
  repeat (match goal with
          | |- context [locate env ?a] => destruct (locate env a)
          | |- context [assign env ?a] => destruct (assign env a)
          | |- context [includes ?x ?y] => destruct (includes x y)
          end; cbn -[includes toLowerCase]);
  reflexivity.
Qed.

Definition env_locate_late : UEnv :=
  {| locate := fun a => if (a =? 1)%nat then NotLocated else Located;
     assign := fun _ => Registered |}.

Definition env_mismatch_first : UEnv :=
  {| locate := fun _ => Located;
     assign := fun a => if (a =? 1)%nat then NotRegistered else Registered |}.

(** C5 (counterexample): a locate failure on the first attempt is not
    fatal: the second attempt, 300 ms later, succeeds; likewise a
    registration mismatch on the first attempt. *)
Lemma upload_retries_locate_and_mismatch :
  locate env_locate_late 1 = NotLocated /\
  uploadAttachmentFile true env_locate_late = Queued [300; 2000] /\
  assign env_mismatch_first 1 = NotRegistered /\
  uploadAttachmentFile true env_mismatch_first = Queued [300; 2000].
Proof. repeat split; reflexivity. Qed.

End UploadFacts.

Module VisibleFacts.
Import JsString Names Visible.
Open Scope string_scope.

Lemma las_app : forall a b,
  list_ascii_of_string (a ++ b) = (list_ascii_of_string a ++ list_ascii_of_string b)%list.
Proof. induction a as [|c a IH]; intros b; cbn; [reflexivity|rewrite IH; reflexivity]. Qed.

Lemma las_inj : forall a b, list_ascii_of_string a = list_ascii_of_string b -> a = b.
Proof.
  intros a b H.
  rewrite <- (string_of_list_ascii_of_string a), <- (string_of_list_ascii_of_string b), H.
  reflexivity.
Qed.

(** The three selectors end differently, so an entry of [snapshotKey]
    determines both the filename and the selector. *)
Lemma key_entry_inj : forall f1 f2 s1 s2,
  f1 ++ "::" ++ selector_string s1 = f2 ++ "::" ++ selector_string s2 ->
  f1 = f2 /\ s1 = s2.
Proof.
  intros f1 f2 s1 s2 H.
  apply (f_equal list_ascii_of_string) in H. rewrite !las_app in H.
  apply (f_equal (@rev ascii)) in H. rewrite !rev_app_distr in H.
  destruct s1, s2;
    first [ apply app_inv_head in H;
            apply (f_equal (@rev ascii)) in H; rewrite !rev_involutive in H;
            split; [apply las_inj; exact H | reflexivity]
          | cbn in H; discriminate H ].
Qed.

Lemma snapshotKey_view : forall a b, snapshotKey a = snapshotKey b <-> view a = view b.
Proof.
  unfold snapshotKey, view.
  induction a as [|x a IH]; intros [|y b]; cbn [map]; split; intros H;
    try reflexivity; try discriminate.
  - inversion H as [[H1 H2]]. apply key_entry_inj in H1 as [Hf Hs].
    apply IH in H2. rewrite Hf, Hs, H2. reflexivity.
  - inversion H as [[H1 H2 H3]]. apply IH in H3. rewrite H1, H2, H3. reflexivity.
Qed.

Lemma key_eqb_view : forall a b,
  key_eqb (snapshotKey a) (Some (snapshotKey b)) = view_eqb a b.
Proof.
  intros a b. unfold key_eqb, view_eqb.
  destruct (list_eq_dec string_dec (snapshotKey a) (snapshotKey b)) as [E|E];
  destruct (list_eq_dec entry_eq_dec (view a) (view b)) as [F|F]; try reflexivity.
  - apply snapshotKey_view in E. contradiction.
  - apply snapshotKey_view in F. contradiction.
Qed.

Lemma verify_loop_samples : forall polls lk st,
  verify_loop polls lk st = verify_loop (map Some (samples polls)) lk st.
Proof.
  induction polls as [|[[|x xs]|] polls IH]; intros lk st;
    cbn [verify_loop samples flat_map map app]; auto.
  destruct (key_eqb (snapshotKey (x :: xs)) lk);
    [destruct st as [|[|st]]|]; cbn [Nat.leb]; auto.
Qed.

Lemma view_eqb_spec : forall a b, view_eqb a b = true <-> view a = view b.
Proof.
  intros a b. unfold view_eqb.
  destruct (list_eq_dec entry_eq_dec (view a) (view b)); split; congruence.
Qed.

Lemma view_eqb_sym : forall a b, view_eqb a b = view_eqb b a.
Proof.
  intros a b. destruct (view_eqb a b) eqn:E, (view_eqb b a) eqn:F; try reflexivity.
  - apply view_eqb_spec in E. rewrite <- F. symmetry. apply view_eqb_spec. congruence.
  - apply view_eqb_spec in F. rewrite <- E. apply view_eqb_spec. congruence.
Qed.

Lemma verify_loop_triple : forall l, Forall (fun x => x <> []) l ->
  (forall a, verify_loop (map Some l) (Some (snapshotKey a)) 0 = find_triple (a :: l)) /\
  (forall a b, view_eqb a b = true ->
     verify_loop (map Some l) (Some (snapshotKey b)) 1 = find_triple (a :: b :: l)).
Proof.
  induction l as [|x l IH]; intros Hne.
  - split; reflexivity.
  - inversion Hne as [|? ? Hx Hl]; subst. specialize (IH Hl) as [IHA IHB].
    destruct x as [|x0 xs]; [contradiction|].
    split.
    + intros a. cbn [map verify_loop]. rewrite key_eqb_view.
      destruct (view_eqb (x0 :: xs) a) eqn:E.
      * assert (Hk : snapshotKey a = snapshotKey (x0 :: xs)).
        { apply snapshotKey_view, view_eqb_spec. rewrite view_eqb_sym. exact E. }
        cbn [Nat.leb]. rewrite Hk. apply IHB. rewrite view_eqb_sym. exact E.
      * cbn [Nat.leb]. rewrite (IHA (x0 :: xs)).
        destruct l as [|y l]; [reflexivity|].
        cbn [find_triple]. rewrite (view_eqb_sym a), E. reflexivity.
    + intros a b Hab. cbn [map verify_loop]. rewrite key_eqb_view.
      destruct (view_eqb (x0 :: xs) b) eqn:E.
      * cbn [Nat.leb find_triple]. rewrite Hab, (view_eqb_sym b), E. reflexivity.
      * cbn [Nat.leb]. rewrite (IHA (x0 :: xs)).
        destruct l as [|y l]; cbn [find_triple]; rewrite Hab, (view_eqb_sym b), E;
          reflexivity.
Qed.

Lemma samples_nonempty : forall polls, Forall (fun x => x <> []) (samples polls).
Proof.
  induction polls as [|[[|x xs]|] polls IH]; cbn; auto.
  constructor; [discriminate|exact IH].
Qed.

(** C10 (amended): [verifyAttachmentsVisible] never throws: an erroring
    poll and an empty poll are skipped without touching the debounce
    state.  It returns the third of the first three successive non-empty
    samples that carry the same filenames and selectors in the same order,
    and the empty list when no such three samples occur before the
    deadline.  Errored or empty polls between them do not reset the count. *)
Theorem verify_returns_first_stable_triple : forall polls,
  verifyAttachmentsVisible polls = find_triple (samples polls).
Proof.
  intros polls. unfold verifyAttachmentsVisible. rewrite verify_loop_samples.
  pose proof (samples_nonempty polls) as Hne.
  destruct (samples polls) as [|x l] eqn:Es; [reflexivity|].
  inversion Hne as [|? ? Hx Hl]; subst.
  destruct x as [|x0 xs]; [contradiction|].
  cbn [map verify_loop key_eqb Nat.leb].
  exact (proj1 (verify_loop_triple l Hl) (x0 :: xs)).
Qed.

Definition att (f : string) : VisibleAttachment :=
  {| filename := f; selector := PillSel; outerHTML := EmptyString |}.

(** C10 (counterexample): the snapshot [a.pdf] is returned although it was
    never seen on three consecutive polls: an erroring poll and an empty
    poll sit between its three sightings. *)
Lemma verify_skips_error_and_empty_polls :
  verifyAttachmentsVisible
    [Some [att "a.pdf"]; None; Some [att "a.pdf"]; Some []; Some [att "a.pdf"]]
  = [att "a.pdf"].
Proof. reflexivity. Qed.




Lemma mem_In : forall x l, mem x l = true <-> In x l.
Proof.
  intros x l. unfold mem. rewrite existsb_exists. split.
  - intros [y [Hy E]]. apply String.eqb_eq in E. subst. exact Hy.
  - intros H. exists x. split; [exact H|apply String.eqb_refl].
Qed.

Lemma filter_not_mem_In : forall l m x,
  In x (filter (fun e => negb (mem e m)) l) <-> In x l /\ ~ In x m.
Proof.
  intros l m x. rewrite filter_In. rewrite negb_true_iff.
  split; intros [H1 H2]; split; auto.
  - intros Hm. apply mem_In in Hm. congruence.
  - destruct (mem x m) eqn:E; [apply mem_In in E; contradiction|reflexivity].
Qed.

Lemma length_pos_In : forall (l : list string), (0 <? List.length l)%nat = true <-> exists x, In x l.
Proof.
  intros [|x l]; cbn; split.
  - discriminate.
  - intros [x []].
  - intros _. exists x. left. reflexivity.
  - reflexivity.
Qed.

(** C6 (amended): the visual check fails exactly when an expected
    normalised name is not visible, or a visible normalised name is not
    expected and the visible count differs from the expected count; it
    then reports the missing names (expected, not visible) and the extra
    ones (visible, not expected).  For expected [a.pdf, b.png] and a stable
    sample [a.pdf, c.pdf] it fails with missing [b.png] and extra [c.pdf]. *)
Theorem check_attachments_fails_iff :
  attachment_pipeline ["a.pdf"; "b.png"]
    [Some [att "a.pdf"; att "c.pdf"]; Some [att "a.pdf"; att "c.pdf"];
     Some [att "a.pdf"; att "c.pdf"]]
  = VerificationFailed ["b.png"] ["c.pdf"] /\
  forall paths visible,
  let exp := map (fun p => normalizeFilename (basename p)) paths in
  let vis := map (fun a => normalizeFilename (filename a)) visible in
  ((exists missing extra, check_attachments paths visible = VerificationFailed missing extra) <->
   (exists e, In e exp /\ ~ In e vis) \/
   ((exists v, In v vis /\ ~ In v exp) /\ List.length vis <> List.length exp)) /\
  (forall missing extra,
     check_attachments paths visible = VerificationFailed missing extra ->
     (forall x, In x missing <-> In x exp /\ ~ In x vis) /\
     (forall x, In x extra <-> In x vis /\ ~ In x exp)).
Proof.
  split; [vm_compute; reflexivity|].
  intros paths visible exp vis.
  unfold check_attachments. fold exp vis.
  set (missing := filter (fun e => negb (mem e vis)) exp).
  set (extra := filter (fun v => negb (mem v exp)) vis).
  assert (Hm : forall x, In x missing <-> In x exp /\ ~ In x vis)
    by (intros x; apply filter_not_mem_In).
  assert (He : forall x, In x extra <-> In x vis /\ ~ In x exp)
    by (intros x; apply filter_not_mem_In).
  split.
  - destruct ((0 <? List.length missing)%nat
              || ((0 <? List.length extra)%nat
                  && negb (List.length vis =? List.length exp)%nat)) eqn:B.
    + split; [intros _|intros _; eauto].
      apply orb_true_iff in B as [B|B].
      * left. apply length_pos_In in B as [x Hx]. exists x. apply Hm, Hx.
      * apply andb_true_iff in B as [B1 B2]. right.
        apply length_pos_In in B1 as [x Hx]. split; [exists x; apply He, Hx|].
        apply negb_true_iff, Nat.eqb_neq in B2. exact B2.
    + split; [intros [? [? H]]; discriminate|].
      intros H. exfalso. apply orb_false_iff in B as [B1 B2].
      destruct H as [[x Hx]|[[x Hx] Hlen]].
      * assert (Hp : (0 <? List.length missing)%nat = true)
          by (apply length_pos_In; exists x; apply Hm, Hx).
        congruence.
      * assert (Hp : (0 <? List.length extra)%nat = true)
          by (apply length_pos_In; exists x; apply He, Hx).
        rewrite Hp in B2. cbn in B2. apply negb_false_iff, Nat.eqb_eq in B2. contradiction.
  - intros mi ex H.
    destruct (_ || _); [|discriminate]. inversion H; subst. split; assumption.
Qed.

(** C6 (counterexample): two attachments that share a base name and a
    visible pair with one unexpected name: the normalised sets {a.pdf} and
    {a.pdf, c.pdf} differ, yet the check passes with 2/2. *)
Lemma check_same_count_extra_passes :
  attachment_pipeline ["a.pdf"; "drafts/a.pdf"]
    [Some [att "a.pdf"; att "c.pdf"]; Some [att "a.pdf"; att "c.pdf"];
     Some [att "a.pdf"; att "c.pdf"]]
  = VerifiedOk 2 2 /\
  In "c.pdf" (map (fun a => normalizeFilename (filename a)) [att "a.pdf"; att "c.pdf"]) /\
  ~ In "c.pdf" (map (fun p => normalizeFilename (basename p)) ["a.pdf"; "drafts/a.pdf"]).
Proof.
  split; [vm_compute; reflexivity|]. split.
  - vm_compute. right. left. reflexivity.
  - vm_compute. intros [H|[H|[]]]; discriminate H.
Qed.

(** C9 (amended): case folding, trimming and whitespace collapsing make
    [my file.txt] and the padded [  my file.txt  ] one key, and a
    duplicate count is stripped when it ends the name ([My File.TXT (1)]);
    a count before the extension stays, so [My File (1).TXT] keeps it. *)
Theorem normalizeFilename_examples :
  normalizeFilename "my file.txt" = "my file.txt" /\
  normalizeFilename "  my file.txt  " = "my file.txt" /\
  normalizeFilename "My File.TXT (1)" = "my file.txt" /\
  normalizeFilename "My File (1).TXT" = "my file (1).txt".
Proof. repeat split; vm_compute; reflexivity. Qed.

(** C9 (counterexample): [My File (1).TXT] and [my file.txt] do not
    normalise to the same key. *)
Lemma normalizeFilename_inner_count_kept :
  normalizeFilename "My File (1).TXT" <> normalizeFilename "my file.txt".
Proof. vm_compute. discriminate. Qed.

End VisibleFacts.

Module RecoveryFacts.
Import Completion Recovery.
Open Scope string_scope.

Lemma route_alt_nonempty : forall k s i, route_alt k s = Some i -> i <> EmptyString.
Proof.
  intros k s i H. unfold route_alt in H.
  destruct s as [|a [|b [|c rest]]]; try discriminate.
  destruct (Ascii.eqb a "/" && Ascii.eqb b k && Ascii.eqb c "/"); [|discriminate].
  destruct (id_run rest); [discriminate|]. inversion H. discriminate.
Qed.

Lemma extract_nonempty : forall u i, extractConversationId u = Some i -> i <> EmptyString.
Proof.
  induction u as [|c u IH]; intros i H; cbn [extractConversationId] in H.
  - discriminate.
  - destruct (route_alt "c" (String c u)) eqn:E1.
    + inversion H; subst. eapply route_alt_nonempty; eauto.
    + destruct (route_alt "g" (String c u)) eqn:E2.
      * inversion H; subst. eapply route_alt_nonempty; eauto.
      * eapply IH; eauto.
Qed.

Lemma wait_ready_ok_or_err : forall polls, wait_ready polls = Ok tt \/ exists e, wait_ready polls = Err e.
Proof.
  induction polls as [|[v|] polls IH]; cbn; eauto.
  destruct (String.eqb v "complete" || String.eqb v "interactive"); auto.
Qed.

(** C8: for a session as [saveSessionState] records it, recovery reports
    success exactly when navigation, the load wait and the location read
    all went through and either the identifier derived from the resulting
    location equals the saved one (whatever else differs in the location),
    or no identifier was saved and the location equals the saved one;
    every other outcome, errors included, is [false], never an exception. *)
Theorem recover_succeeds_iff : forall env session,
  conversationId session = extractConversationId (session_url session) ->
  (navigateToSavedSession env session = true <->
   exists u, reached env u /\
     ((exists i, conversationId session = Some i /\ extractConversationId u = Some i) \/
      (conversationId session = None /\ u = session_url session))).
Proof.
  intros env session Hcons. unfold navigateToSavedSession, reached.
  destruct (navigate_ok env) eqn:Hnav; cbn [negb].
  2:{ split; [discriminate|]. intros [u [[H _] _]]. discriminate. }
  destruct (wait_ready_ok_or_err (ready_polls env)) as [Hw|[e Hw]]; rewrite Hw.
  2:{ split; [discriminate|]. intros [u [[_ [H _]] _]]. congruence. }
  destruct (current_url env) as [[u|]|] eqn:Hcur.
  2,3: split; [discriminate|]; intros [u' [[_ [_ H]] _]]; discriminate.
  assert (Hreach : forall u', Some (Some u) = Some (Some u') <-> u = u')
    by (intros u'; split; [intros H; inversion H; reflexivity|intros ->; reflexivity]).
  destruct (conversationId session) as [i|] eqn:Hid.
  - assert (Hi : i <> EmptyString) by (eapply extract_nonempty; eauto).
    cbn [truthy]. rewrite (proj2 (String.eqb_neq i EmptyString) Hi). cbn [negb andb].
    destruct (opt_eqb (extractConversationId u) (Some i)) eqn:Eq.
    + split; [intros _|reflexivity].
      exists u. split; [auto|]. left. exists i. split; [reflexivity|].
      destruct (extractConversationId u) as [j|]; [|discriminate].
      cbn in Eq. apply String.eqb_eq in Eq. subst. reflexivity.
    + destruct (String.eqb u (session_url session)) eqn:Eu.
      * apply String.eqb_eq in Eu. subst u. rewrite <- Hcons in Eq.
        cbn in Eq. rewrite String.eqb_refl in Eq. discriminate.
      * split; [discriminate|].
        intros [u' [[_ [_ Hu']] [[j [Hj Hx]]|[Hn _]]]]; [|discriminate].
        assert (j = i) as -> by congruence. assert (u = u') as <- by congruence.
        rewrite Hx in Eq. cbn in Eq. rewrite String.eqb_refl in Eq. discriminate.
  - cbn [truthy andb].
    destruct (String.eqb u (session_url session)) eqn:Eu.
    + apply String.eqb_eq in Eu. split; [intros _|reflexivity].
      exists u. split; [auto|]. right. split; [reflexivity|exact Eu].
    + split; [discriminate|].
      intros [u' [[_ [_ Hu']] [[j [Hj _]]|[_ Hx]]]]; [discriminate|].
      assert (u = u') as <- by congruence.
      rewrite Hx, String.eqb_refl in Eu. discriminate.
Qed.

Definition saved_abc : BrowserSession := saved_session "https://chatgpt.com/c/abc123".

Definition env_with_query : NavEnv :=
  {| navigate_ok := true;
     ready_polls := [Some "loading"; Some "complete"];
     current_url := Some (Some "https://chatgpt.com/c/abc123?model=gpt-4o") |}.

Lemma recover_succeeds_iff_witness :
  conversationId saved_abc = Some "abc123" /\
  navigateToSavedSession env_with_query saved_abc = true.
Proof.
  split; [reflexivity|].
  apply (proj2 (recover_succeeds_iff env_with_query saved_abc eq_refl)).
  exists "https://chatgpt.com/c/abc123?model=gpt-4o".
  split; [split; [reflexivity|split; reflexivity]|].
  left. exists "abc123". split; reflexivity.
Defined.

End RecoveryFacts.


Module LockExtras.
Import Lock.

Lemma with_pc_pc : forall p, with_pc p (pc p) = p.
Proof. intros [m c t dl q]; reflexivity. Qed.

Lemma with_pc_twice : forall p a b, with_pc (with_pc p a) b = with_pc p b.
Proof. intros [m c t dl q] a b; reflexivity. Qed.

(** The file cannot be taken over: it is corrupt, or its owner is alive
    and the wait has no time limit. *)
Definition blocked (alive : Z -> bool) (p : Proc) (d : Disk) : Prop :=
  d = Some Corrupt \/
  exists e, d = Some (Valid e) /\ isProcessAlive alive (pid e) = true /\ timeoutMs p <= 0.

Definition waiting (p : Proc) : Prop := pc p = Try \/ pc p = ReadLock \/ pc p = Backoff.

Lemma blocked_step : forall alive rm_ok now p d,
  waiting p -> blocked alive p d ->
  let '(p', d', dl) := step alive rm_ok now p d in
  d' = d /\ waiting p' /\ timeoutMs p' = timeoutMs p /\ me p' = me p.
Proof.
  intros alive rm_ok now p d Hw Hb.
  destruct Hb as [-> | [e [-> [Ha Ht]]]];
  destruct Hw as [H|[H|H]]; unfold step; rewrite H; cbn -[isProcessAlive];
  unfold waiting; cbn; auto 6.
  rewrite Ha. cbn. replace (0 <? timeoutMs p) with false by (symmetry; apply Z.ltb_ge; lia).
  cbn. auto 6.
Qed.

Lemma blocked_run : forall alive rm_ok n now p d,
  waiting p -> blocked alive p d ->
  let '(p', d', _) := run alive rm_ok n now p d in
  d' = d /\ waiting p' /\ me p' = me p.
Proof.
  intros alive rm_ok n. induction n as [|n IH]; intros now p d Hw Hb; cbn.
  - auto.
  - pose proof (blocked_step alive rm_ok now p d Hw Hb) as Hs.
    destruct (step alive rm_ok now p d) as [[p1 d1] dl].
    destruct Hs as (-> & Hw1 & Ht1 & Hm1).
    assert (Hb1 : blocked alive p1 d) by (unfold blocked in *; rewrite Ht1; exact Hb).
    specialize (IH (now + dl) p1 d Hw1 Hb1).
    destruct (run alive rm_ok n (now + dl) p1 d) as [[p2 d2] t2].
    destruct IH as (? & ? & ?). split; [|split]; congruence.
Qed.

Lemma blocked_acquire : forall alive rm_ok fuel now p d,
  waiting p -> blocked alive p d -> acquire alive rm_ok fuel now p d = None.
Proof.
  intros alive rm_ok fuel. induction fuel as [|f IH]; intros now p d Hw Hb.
  - destruct Hw as [H|[H|H]]; cbn; rewrite H; reflexivity.
  - assert (E : acquire alive rm_ok (S f) now p d =
              let '(p1, d1, dl) := step alive rm_ok now p d in
              acquire alive rm_ok f (now + dl) p1 d1)
      by (destruct Hw as [H|[H|H]]; cbn [acquire]; rewrite H; reflexivity).
    rewrite E.
    pose proof (blocked_step alive rm_ok now p d Hw Hb) as Hs.
    destruct (step alive rm_ok now p d) as [[p1 d1] dl].
    destruct Hs as (-> & Hw1 & Ht1 & _).
    apply IH; [exact Hw1| unfold blocked in *; rewrite Ht1; exact Hb].
Qed.

Lemma corrupt_cycle : forall alive rm_ok k r now p,
  pc p = Try ->
  run alive rm_ok (3 * k + r) now p (Some Corrupt)
  = run alive rm_ok r (now + retryDelayMs * Z.of_nat k) p (Some Corrupt).
Proof.
  intros alive rm_ok k. induction k as [|k IH]; intros r now p Hpc.
  - cbn -[run]. f_equal. lia.
  - replace (3 * S k + r)%nat with (S (S (S (3 * k + r)))) by lia.
    destruct p as [m c t dl q]. cbn in Hpc. subst q.
    cbn -[Nat.mul]. rewrite IH by reflexivity. f_equal. unfold retryDelayMs. lia.
Qed.

(** A corrupt lock file (unparsable, or without numeric [pid] and
    [createdAt]) is never removed, and [acquireBrowserLock] never takes the
    lock nor times out, whatever [timeoutMs] is.  It cycles forever through
    the [wx] write, the read and the 750 ms delay: after [n] steps it is at
    the [n mod 3]-th of these, the file is unchanged, and the clock has
    advanced by 750 ms for each completed cycle, so its write attempts
    happen exactly 750 ms apart. *)
Theorem lock_corrupt_file_blocks_forever : forall alive rm_ok p now,
  pc p = Try ->
  (forall fuel, acquire alive rm_ok fuel now p (Some Corrupt) = None) /\
  (forall n, run alive rm_ok n now p (Some Corrupt)
             = (with_pc p (nth (n mod 3)%nat [Try; ReadLock; Backoff] Try), Some Corrupt,
                now + retryDelayMs * Z.of_nat (n / 3)%nat)).
Proof.
  intros alive rm_ok p now Hpc.
  assert (Hw : waiting p) by (left; exact Hpc).
  assert (Hb : blocked alive p (Some Corrupt)) by (left; reflexivity).
  split.
  - intros fuel. apply blocked_acquire; assumption.
  - intros n. rewrite (Nat.div_mod_eq n 3) at 1.
    rewrite corrupt_cycle by exact Hpc.
    pose proof (Nat.mod_upper_bound n 3 ltac:(lia)) as Hr.
    destruct p as [m c t dl q]. cbn in Hpc. subst q.
    destruct (n mod 3)%nat as [|[|[|r]]]; [| | |lia]; cbn; rewrite ?Z.add_0_r; reflexivity.
Qed.

Lemma live_cycle : forall alive rm_ok f now p e,
  pc p = Try -> isProcessAlive alive (pid e) = true ->
  now <= deadline p ->
  acquire alive rm_ok (S (S (S f))) now p (Some (Valid e))
  = acquire alive rm_ok f (now + retryDelayMs) p (Some (Valid e)).
Proof.
  intros alive rm_ok f now [m c t dl q] e Hpc Ha Hn. cbn in Hpc, Hn. subst q.
  cbn -[isProcessAlive]. rewrite Ha. cbn.
  replace (dl <? now + 0) with false by (symmetry; apply Z.ltb_ge; lia).
  rewrite andb_false_r. cbn. f_equal. unfold retryDelayMs. lia.
Qed.

Lemma live_timeout : forall alive rm_ok f now p e,
  pc p = Try -> isProcessAlive alive (pid e) = true ->
  0 < timeoutMs p -> deadline p < now ->
  acquire alive rm_ok (S (S f)) now p (Some (Valid e)) = Some (TimedOut, Some (Valid e), now).
Proof.
  intros alive rm_ok f now [m c t dl q] e Hpc Ha Ht Hn. cbn in Hpc, Ht, Hn. subst q.
  cbn -[isProcessAlive]. rewrite Ha. cbn.
  replace (0 <? t) with true by (symmetry; apply Z.ltb_lt; lia).
  replace (dl <? now + 0) with true by (symmetry; apply Z.ltb_lt; lia).
  cbn. destruct f; cbn; f_equal; f_equal; lia.
Qed.

Lemma live_wait_n : forall alive rm_ok p e n now fuel,
  pc p = Try -> isProcessAlive alive (pid e) = true -> 0 < timeoutMs p ->
  deadline p - now < retryDelayMs * Z.of_nat n -> now <= deadline p + retryDelayMs ->
  (3 * n + 2 <= fuel)%nat ->
  exists t, acquire alive rm_ok fuel now p (Some (Valid e)) = Some (TimedOut, Some (Valid e), t)
    /\ deadline p < t <= deadline p + retryDelayMs.
Proof.
  intros alive rm_ok p e n. induction n as [|n IH]; intros now fuel Hpc Ha Ht Hlt Hle Hf.
  - destruct fuel as [|[|f]]; try lia. exists now.
    cbn in Hlt. rewrite live_timeout by (auto; lia).
    split; [reflexivity|unfold retryDelayMs in *; lia].
  - destruct (Z_lt_le_dec (deadline p) now) as [Hd|Hd].
    + destruct fuel as [|[|f]]; try lia. exists now.
      rewrite live_timeout by (auto; lia).
      split; [reflexivity|unfold retryDelayMs in *; lia].
    + destruct fuel as [|[|[|f]]]; try lia.
      rewrite live_cycle by (auto; lia).
      apply IH; auto; unfold retryDelayMs in *; lia.
Qed.

(** Against a lock file whose recorded owner stays alive, acquisition
    gives up only when [timeoutMs] is positive: started no later than its
    deadline, it throws the timeout error at the first check after the
    deadline, at most 750 ms after it, leaving the file untouched.  With
    [timeoutMs <= 0] it never gives up and never touches the file. *)
Theorem lock_live_owner_timeout : forall alive rm_ok p e now,
  pc p = Try -> isProcessAlive alive (pid e) = true ->
  (0 < timeoutMs p -> now <= deadline p ->
   exists t, acquire alive rm_ok (3 * Z.to_nat ((deadline p - now) / retryDelayMs) + 5) now p
               (Some (Valid e)) = Some (TimedOut, Some (Valid e), t)
             /\ deadline p < t <= deadline p + retryDelayMs) /\
  (timeoutMs p <= 0 -> forall fuel, acquire alive rm_ok fuel now p (Some (Valid e)) = None).
Proof.
  intros alive rm_ok p e now Hpc Ha. split.
  - intros Ht Hn.
    apply (live_wait_n alive rm_ok p e (S (Z.to_nat ((deadline p - now) / retryDelayMs)))); auto.
    + unfold retryDelayMs in *.
      pose proof (Z.div_mod (deadline p - now) 750 ltac:(lia)).
      pose proof (Z.mod_pos_bound (deadline p - now) 750 ltac:(lia)).
      assert (0 <= (deadline p - now) / 750) by (apply Z.div_pos; lia).
      rewrite Nat2Z.inj_succ, Z2Nat.id by lia. lia.
    + unfold retryDelayMs; lia.
    + lia.
  - intros Ht fuel. apply blocked_acquire; [left; exact Hpc|right; exists e; auto].
Qed.

Definition waiter : Proc :=
  {| me := 5; created := 0; timeoutMs := 1500; deadline := 1500; pc := Try |}.

Definition owner9 : BrowserLockPayload := {| pid := Some 9; createdAt := 0 |}.

Definition alive9 (z : Z) : bool := z =? 9.

Lemma lock_corrupt_file_blocks_forever_witness :
  pc waiter = Try /\
  run alive9 true 7 0 waiter (Some Corrupt) = (with_pc waiter ReadLock, Some Corrupt, 1500).
Proof.
  split; [reflexivity|].
  exact (proj2 (lock_corrupt_file_blocks_forever alive9 true waiter 0 ltac:(reflexivity)) 7%nat).
Defined.

Lemma lock_live_owner_timeout_witness :
  pc waiter = Try /\ isProcessAlive alive9 (pid owner9) = true /\
  exists t, acquire alive9 true (3 * Z.to_nat ((deadline waiter - 0) / retryDelayMs) + 5) 0
              waiter (Some (Valid owner9)) = Some (TimedOut, Some (Valid owner9), t)
            /\ deadline waiter < t <= deadline waiter + retryDelayMs.
Proof.
  split; [reflexivity|]. split; [reflexivity|].
  apply (proj1 (lock_live_owner_timeout alive9 true waiter owner9 0
                  ltac:(reflexivity) ltac:(reflexivity)));
    cbn; lia.
Defined.

End LockExtras.


Module ExclusionFacts.
Import Lock.

Lemma step_me : forall alive rm_ok now p d p' d' dl,
  step alive rm_ok now p d = (p', d', dl) -> me p' = me p /\ created p' = created p.
Proof.
  intros alive rm_ok now [m c t dl0 q] d p' d' dl H.
  unfold step in H; cbn in H.
  destruct q; repeat match type of H with
    | context [match ?x with _ => _ end] => destruct x
    end; inversion H; subst; auto.
Qed.

Lemma map_set_nth : forall (ps : list Proc) i p p',
  nth_error ps i = Some p -> me p' = me p -> map me (set_nth i p' ps) = map me ps.
Proof.
  induction ps as [|a ps IH]; intros [|i] p p' Hn Hm; cbn in *; try discriminate.
  - inversion Hn; subst. rewrite Hm. reflexivity.
  - f_equal. eapply IH; eauto.
Qed.

Lemma In_set_nth : forall (ps : list Proc) i p' q,
  In q (set_nth i p' ps) -> q = p' \/ exists j, j <> i /\ nth_error ps j = Some q.
Proof.
  induction ps as [|a ps IH]; intros [|i] p' q H; cbn in H.
  - contradiction.
  - contradiction.
  - destruct H as [H|H]; [left; congruence|].
    right. apply In_nth_error in H as [j Hj]. exists (S j). split; [discriminate|exact Hj].
  - destruct H as [H|H].
    + right. exists 0%nat. split; [discriminate|cbn; congruence].
    + destruct (IH i p' q H) as [E|[j [Hj E]]]; [left; exact E|].
      right. exists (S j). split; [congruence|exact E].
Qed.

Lemma set_nth_In : forall (ps : list Proc) i p p',
  nth_error ps i = Some p -> In p' (set_nth i p' ps).
Proof.
  induction ps as [|a ps IH]; intros [|i] p p' Hn; cbn in *; try discriminate.
  - left. reflexivity.
  - right. eapply IH; eauto.
Qed.

Lemma me_unique : forall (ps : list Proc) i j a b,
  NoDup (map me ps) -> nth_error ps i = Some a -> nth_error ps j = Some b ->
  me a = me b -> i = j.
Proof.
  intros ps i j a b Hnd Ha Hb Hm.
  apply (proj1 (NoDup_nth_error (map me ps)) Hnd).
  - rewrite length_map. apply nth_error_Some. congruence.
  - rewrite !nth_error_map, Ha, Hb. cbn. congruence.
Qed.

Lemma payload_me : forall p q, payload_of p = payload_of q -> me p = me q.
Proof. intros p q H. unfold payload_of in H. inversion H. reflexivity. Qed.

(** The invariant of a run in which every contender's pid is one of the
    distinct live [pids]. *)
Definition excl_inv (pids : list Z) (s : Disk * list Proc) : Prop :=
  let '(d, ps) := s in
  map me ps = pids /\
  (forall p, In p ps -> pc p <> RemoveStale) /\
  (d = None \/ exists m c, In m pids /\ d = Some (Valid {| pid := Some m; createdAt := c |})) /\
  (forall p, In p ps -> holds_lock p = true -> d = Some (payload_of p)).

Section Exclusion.
Variable alive : Z -> bool.
Variable pids : list Z.
Hypothesis Hnodup : NoDup pids.
Hypothesis Hlive : forall m, In m pids -> isProcessAlive alive (Some m) = true.

Lemma inv_same_disk : forall d ps i p p',
  nth_error ps i = Some p -> me p' = me p -> excl_inv pids (d, ps) ->
  pc p' <> RemoveStale ->
  (holds_lock p' = true -> holds_lock p = true /\ payload_of p' = payload_of p) ->
  excl_inv pids (d, set_nth i p' ps).
Proof.
  intros d ps i p p' Hn Hm (Hme & Hnrs & Hd & Hh) Hp' Hhold.
  split; [rewrite (map_set_nth ps i p p' Hn Hm); exact Hme|].
  split; [|split; [exact Hd|]].
  - intros q Hq. apply In_set_nth in Hq as [->|[j [_ Hj]]]; [exact Hp'|].
    apply Hnrs. eapply nth_error_In; eauto.
  - intros q Hq Hhq. apply In_set_nth in Hq as [->|[j [_ Hj]]].
    + destruct (Hhold Hhq) as [Hhp Hpay]. rewrite Hpay.
      apply Hh; [eapply nth_error_In; eauto|exact Hhp].
    + apply Hh; [eapply nth_error_In; eauto|exact Hhq].
Qed.

Lemma inv_take : forall ps i p p',
  nth_error ps i = Some p -> me p' = me p -> created p' = created p ->
  excl_inv pids (None, ps) -> pc p' <> RemoveStale ->
  excl_inv pids (Some (payload_of p'), set_nth i p' ps).
Proof.
  intros ps i p p' Hn Hm Hc (Hme & Hnrs & Hd & Hh) Hp'.
  split; [rewrite (map_set_nth ps i p p' Hn Hm); exact Hme|].
  split; [|split].
  - intros q Hq. apply In_set_nth in Hq as [->|[j [_ Hj]]]; [exact Hp'|].
    apply Hnrs. eapply nth_error_In; eauto.
  - right. exists (me p'), (created p'). split; [|reflexivity].
    rewrite <- Hme, Hm. apply in_map. eapply nth_error_In; eauto.
  - intros q Hq Hhq. apply In_set_nth in Hq as [->|[j [_ Hj]]]; [reflexivity|].
    specialize (Hh q (nth_error_In _ _ Hj) Hhq). discriminate.
Qed.

Lemma inv_drop : forall d ps i p p',
  nth_error ps i = Some p -> me p' = me p -> excl_inv pids (d, ps) ->
  holds_lock p = true -> holds_lock p' = false -> pc p' <> RemoveStale ->
  excl_inv pids (None, set_nth i p' ps).
Proof.
  intros d ps i p p' Hn Hm (Hme & Hnrs & Hd & Hh) Hhp Hhp' Hp'.
  split; [rewrite (map_set_nth ps i p p' Hn Hm); exact Hme|].
  split; [|split; [left; reflexivity|]].
  - intros q Hq. apply In_set_nth in Hq as [->|[j [_ Hj]]]; [exact Hp'|].
    apply Hnrs. eapply nth_error_In; eauto.
  - intros q Hq Hhq. apply In_set_nth in Hq as [->|[j [Hji Hj]]]; [congruence|].
    exfalso. apply Hji.
    assert (E : Some (payload_of q) = Some (payload_of p)).
    { rewrite <- (Hh q (nth_error_In _ _ Hj) Hhq). apply Hh; [eapply nth_error_In; eauto|exact Hhp]. }
    assert (E' : me q = me p) by (unfold payload_of in E; congruence).
    eapply me_unique; eauto. rewrite Hme. exact Hnodup.
Qed.

Lemma inv_cstep : forall s s', excl_inv pids s -> cstep alive s s' -> excl_inv pids s'.
Proof.
  intros s s' Hinv Hs. destruct Hs as [d ps i p rm_ok now p' d' dl Hn Hstep].
  pose proof (step_me _ _ _ _ _ _ _ _ Hstep) as [Hm Hc].
  pose proof Hinv as (_ & Hnrs & Hd & _).
  assert (HpIn : In p ps) by (eapply nth_error_In; eauto).
  unfold step in Hstep. destruct (pc p) eqn:Hpc.
  - destruct d as [x|].
    + inversion Hstep; subst. eapply inv_same_disk; eauto; cbn; [discriminate|discriminate].
    + inversion Hstep; subst.
      change (payload_of p) with (payload_of (with_pc p Held)).
      eapply inv_take; eauto. cbn. discriminate.
  - destruct (readExistingLock d) as [e|] eqn:Er.
    + destruct (isProcessAlive alive (pid e)) eqn:Ea.
      * cbn in Hstep.
        destruct ((0 <? timeoutMs p) && (deadline p <? now));
          inversion Hstep; subst; eapply inv_same_disk; eauto; cbn; discriminate.
      * exfalso. destruct Hd as [->|[m [c [Hin ->]]]]; [discriminate|].
        cbn in Er. inversion Er; subst. cbn [pid] in Ea. rewrite Hlive in Ea by exact Hin.
        discriminate.
    + inversion Hstep; subst. eapply inv_same_disk; eauto; cbn; discriminate.
  - exfalso. exact (Hnrs p HpIn Hpc).
  - inversion Hstep; subst. eapply inv_same_disk; eauto; cbn; discriminate.
  - inversion Hstep; subst. eapply inv_same_disk; eauto; cbn; [discriminate|].
    intros _. unfold holds_lock. rewrite Hpc. auto.
  - destruct (readExistingLock d) as [e|].
    + destruct (pid_eqb (pid e) (Some (me p)));
        inversion Hstep; subst; eapply inv_same_disk; eauto; cbn; try discriminate;
        intros _; unfold holds_lock; rewrite Hpc; auto.
    + inversion Hstep; subst; eapply inv_same_disk; eauto; cbn; discriminate.
  - destruct rm_ok; cbn in Hstep; inversion Hstep; subst.
    + eapply inv_drop; eauto; try (unfold holds_lock; rewrite Hpc); try reflexivity;
        cbn; discriminate.
    + eapply inv_same_disk; eauto; cbn; discriminate.
  - inversion Hstep; subst. eapply inv_same_disk; eauto;
      try (rewrite Hpc; discriminate); try (intros H; split; [exact H|reflexivity]).
  - inversion Hstep; subst. eapply inv_same_disk; eauto;
      try (rewrite Hpc; discriminate); try (intros H; split; [exact H|reflexivity]).
Qed.

Lemma inv_reach : forall s s', clos_refl_trans_1n _ (cstep alive) s s' ->
  excl_inv pids s -> excl_inv pids s'.
Proof.
  intros s s' H. induction H as [s|s s1 s' H1 H2 IH]; intros Hi; [exact Hi|].
  apply IH. eapply inv_cstep; eauto.
Qed.
End Exclusion.

Lemma holders_zero : forall ps m,
  (forall p, In p ps -> holds_lock p = true -> me p = m) -> ~ In m (map me ps) ->
  holders ps = 0%nat.
Proof.
  induction ps as [|a ps IH]; intros m Hh Hn; [reflexivity|].
  unfold holders in *. cbn. destruct (holds_lock a) eqn:Ha.
  - exfalso. apply Hn. left. apply Hh; [left; reflexivity|exact Ha].
  - apply (IH m); [intros p Hp; apply Hh; right; exact Hp|intros H; apply Hn; right; exact H].
Qed.

Lemma holders_le_1 : forall ps d,
  NoDup (map me ps) -> (forall p, In p ps -> holds_lock p = true -> d = Some (payload_of p)) ->
  (holders ps <= 1)%nat.
Proof.
  induction ps as [|a ps IH]; intros d Hnd Hh; [cbn; lia|].
  inversion Hnd as [|x l Hx Hnd']; subst.
  assert (Hcons : holders (a :: ps) = ((if holds_lock a then 1 else 0) + holders ps)%nat)
    by (unfold holders; cbn; destruct (holds_lock a); reflexivity).
  rewrite Hcons. destruct (holds_lock a) eqn:Ha.
  - rewrite (holders_zero ps (me a)); [lia| |exact Hx].
    intros p Hp Hhp.
    assert (E : Some (payload_of p) = Some (payload_of a)).
    { rewrite <- (Hh p (or_intror Hp) Hhp). apply Hh; [left; reflexivity|exact Ha]. }
    unfold payload_of in E. congruence.
  - cbn. apply (IH d Hnd'). intros p Hp. apply Hh. right. exact Hp.
Qed.

(** When every contender is a live process with its own positive pid and
    the lock path starts empty, no interleaving of their acquisitions and
    releases ever lets two of them hold the lock at once, and the file on
    disk is always the record of the current holder. *)
Theorem lock_live_contenders_exclusive : forall alive ps d' ps',
  NoDup (map me ps) ->
  (forall p, In p ps -> pc p = Try /\ isProcessAlive alive (Some (me p)) = true) ->
  reachable alive (None, ps) (d', ps') ->
  (holders ps' <= 1)%nat /\
  (forall p, In p ps' -> holds_lock p = true -> d' = Some (payload_of p)).
Proof.
  intros alive ps d' ps' Hnd Hps Hr.
  assert (Hlive : forall m, In m (map me ps) -> isProcessAlive alive (Some m) = true).
  { intros m Hm. apply in_map_iff in Hm as [p [<- Hp]]. apply Hps. exact Hp. }
  assert (H0 : excl_inv (map me ps) (None, ps)).
  { split; [reflexivity|]. split; [|split; [left; reflexivity|]].
    - intros p Hp. rewrite (proj1 (Hps p Hp)). discriminate.
    - intros p Hp. unfold holds_lock. rewrite (proj1 (Hps p Hp)). discriminate. }
  pose proof (inv_reach alive (map me ps) Hnd Hlive _ _ Hr H0) as (Hme & _ & _ & Hh).
  split; [|exact Hh].
  apply (holders_le_1 ps' d'); [rewrite Hme; exact Hnd|exact Hh].
Qed.

Definition live12 (z : Z) : bool := (z =? 1) || (z =? 2).

Definition runner (m : Z) : Proc :=
  {| me := m; created := 100; timeoutMs := 30 * 60000; deadline := 100 + 30 * 60000;
     pc := Try |}.

Lemma lock_live_contenders_exclusive_witness :
  (holders [with_pc (runner 1) Held; with_pc (runner 2) ReadLock] <= 1)%nat.
Proof.
  apply (proj1 (lock_live_contenders_exclusive live12 [runner 1; runner 2]
           (Some (payload_of (runner 1)))
           [with_pc (runner 1) Held; with_pc (runner 2) ReadLock]
           ltac:(repeat constructor; cbn; intuition lia)
           ltac:(intros p [<-|[<-|[]]]; split; reflexivity)
           ltac:(eapply rt1n_trans; [eapply (cstep_run _ _ _ 0%nat _ true 0); reflexivity|];
                 eapply rt1n_trans; [eapply (cstep_run _ _ _ 1%nat _ true 0); reflexivity|];
                 apply rt1n_refl))).
Defined.
End ExclusionFacts.


Module CompletionExtras.
Import Completion.

Section Bound.
Variable env : Env.
Hypothesis Hdur : forall r t b dur, recovery env = Some r -> r t = Some (b, dur) -> 0 <= dur.
Variable deadline : Z.

Lemma wait_loop_bounded : forall fuel now lastUrl,
  (1 <= fuel)%nat -> deadline - now <= 250 * (Z.of_nat fuel - 1) ->
  wait_loop env deadline fuel now lastUrl = TimedOutErr \/
  exists t, wait_loop env deadline fuel now lastUrl = Confirmed t /\
            now + 1500 <= t < deadline + 1500.
Proof.
  induction fuel as [|f IH]; intros now lastUrl Hf Hb; [lia|].
  cbn [wait_loop].
  destruct (now <? deadline) eqn:Hn; cbn [negb]; [|left; reflexivity].
  apply Z.ltb_lt in Hn.
  assert (Hf1 : (1 <= f)%nat) by (destruct f; [cbn in Hb; lia|lia]).
  assert (Go : forall now' lu, now + 250 <= now' ->
     wait_loop env deadline f now' lu = TimedOutErr \/
     exists t, wait_loop env deadline f now' lu = Confirmed t /\ now + 1500 <= t < deadline + 1500).
  { intros now' lu Hle. destruct (IH now' lu Hf1 ltac:(rewrite Nat2Z.inj_succ in Hb; lia))
      as [H|[t [H Ht]]]; [left; exact H|right; exists t; split; [exact H|lia]]. }
  destruct (evaluate env now) as [v|]; [|apply Go; lia].
  destruct (truthy lastUrl && truthy (Some (url v)) && negb (opt_eqb lastUrl (Some (url v)))).
  - destruct (recovery env) as [r|] eqn:Er; [|apply Go; lia].
    destruct (r now) as [[[|] dur]|] eqn:Erd; [| |apply Go; lia];
      pose proof (Hdur r now _ dur ltac:(first [exact Er | reflexivity]) Erd).
    + destruct (href env (now + dur + 2000)); apply Go; lia.
    + apply Go; lia.
  - destruct (is_ready v); [|apply Go; lia].
    destruct (evaluate env (now + 500)) as [c|]; [|apply Go; lia].
    destruct (is_ready c && _); [|apply Go; lia].
    destruct (evaluate env (now + 1500)) as [fv|]; [|apply Go; lia].
    destruct (is_ready fv && _); [|apply Go; lia].
    right. exists (now + 1500). split; [reflexivity|lia].
Qed.
End Bound.

(** [waitForAttachmentCompletion] always settles: it either throws the
    timeout error or confirms, and it confirms no earlier than 1500 ms
    after it started (the last of its three checks) and less than 1500 ms
    after its deadline, since each confirmation cycle starts before the
    deadline.  (Recovery navigation takes no negative time.) *)
Theorem completion_settles_within_budget : forall env timeoutMs now0,
  (forall r t b dur, recovery env = Some r -> r t = Some (b, dur) -> 0 <= dur) ->
  waitForAttachmentCompletion env timeoutMs now0 = TimedOutErr \/
  exists t, waitForAttachmentCompletion env timeoutMs now0 = Confirmed t /\
            now0 + 1500 <= t < now0 + timeoutMs + 1500.
Proof.
  intros env timeoutMs now0 Hdur. unfold waitForAttachmentCompletion.
  apply wait_loop_bounded; [exact Hdur|lia|].
  rewrite !Nat2Z.inj_succ.
  destruct (Z_le_gt_dec 0 timeoutMs).
  - pose proof (Z.div_mod timeoutMs 250 ltac:(lia)).
    pose proof (Z.mod_pos_bound timeoutMs 250 ltac:(lia)).
    assert (0 <= timeoutMs / 250) by (apply Z.div_pos; lia).
    rewrite Z2Nat.id by lia. lia.
  - lia.
Qed.

Definition ready_env : Env :=
  {| evaluate := fun _ => Some {| state := Ready; uploading := false;
                                  url := "https://chatgpt.com/c/abc123"%string |};
     href := fun _ => Some "https://chatgpt.com/c/abc123"%string;
     recovery := None |}.

Lemma completion_settles_within_budget_witness :
  waitForAttachmentCompletion ready_env 1000 0 = TimedOutErr \/
  exists t, waitForAttachmentCompletion ready_env 1000 0 = Confirmed t /\
            0 + 1500 <= t < 0 + 1000 + 1500.
Proof.
  apply completion_settles_within_budget. intros r t b dur H. discriminate.
Defined.

End CompletionExtras.

Module UploadExtras.
Import JsString Upload.

(** [uploadAttachmentFile] never makes a fourth attempt: its outcome
    depends only on what the page answers at attempts 1 to 3.  Its sleeps
    are a prefix of the 300 ms and 600 ms backoffs, followed by the
    2000 ms settle delay when the file is queued. *)
Theorem upload_three_attempts_bounded_sleep : forall env env',
  (forall a, (1 <= a <= 3)%nat -> locate env a = locate env' a /\ assign env a = assign env' a) ->
  uploadAttachmentFile true env = uploadAttachmentFile true env' /\
  match uploadAttachmentFile true env with
  | Queued ds => In ds [[2000]; [300; 2000]; [300; 600; 2000]]
  | Thrown _ ds => In ds [[]; [300]; [300; 600]]
  end.
Proof.
  intros env env' Hag.
  destruct (Hag 1%nat ltac:(lia)) as [L1 A1].
  destruct (Hag 2%nat ltac:(lia)) as [L2 A2].
  destruct (Hag 3%nat ltac:(lia)) as [L3 A3].
  unfold uploadAttachmentFile, attempts, finish. cbn -[includes toLowerCase].
  rewrite <- L1, <- L2, <- L3, <- A1, <- A2, <- A3.
  split; [reflexivity|].
  repeat (match goal with
          | |- context [locate env ?a] => destruct (locate env a)
          | |- context [assign env ?a] => destruct (assign env a)
          | |- context [includes ?x ?y] => destruct (includes x y)
          end; cbn -[includes toLowerCase]);
  cbn; tauto.
Qed.

Definition flaky_env : UEnv :=
  {| locate := fun _ => Located;
     assign := fun a => if (a <? 3)%nat then AssignThrows "Could not find node with given id"%string
                        else Registered |}.

Lemma upload_three_attempts_bounded_sleep_witness :
  uploadAttachmentFile true flaky_env = uploadAttachmentFile true flaky_env /\
  In [300; 600; 2000] [[2000]; [300; 2000]; [300; 600; 2000]].
Proof.
  pose proof (upload_three_attempts_bounded_sleep flaky_env flaky_env
                ltac:(intros; split; reflexivity)) as [H1 H2].
  split; [exact H1|]. vm_compute in H2. exact H2.
Defined.

End UploadExtras.


Module RecoveryExtras.
Import Recovery.
Open Scope string_scope.

Fixpoint all_id_chars (s : string) : bool :=
  match s with
  | EmptyString => true
  | String c r => is_id_char c && all_id_chars r
  end.

Lemma id_run_chars : forall s, all_id_chars (id_run s) = true.
Proof.
  induction s as [|c s IH]; cbn; [reflexivity|].
  destruct (is_id_char c) eqn:E; cbn; [rewrite E, IH; reflexivity|reflexivity].
Qed.

Lemma route_alt_chars : forall k s i, route_alt k s = Some i ->
  i <> EmptyString /\ all_id_chars i = true.
Proof.
  intros k s i H. unfold route_alt in H.
  destruct s as [|a [|b [|c rest]]]; try discriminate.
  destruct (Ascii.eqb a "/" && Ascii.eqb b k && Ascii.eqb c "/"); [|discriminate].
  pose proof (id_run_chars rest) as Hc.
  destruct (id_run rest); [discriminate|]. inversion H; subst. split; [discriminate|exact Hc].
Qed.

(** A conversation identifier extracted from a location is never empty
    and consists of letters, digits and hyphens only. *)
Theorem conversation_id_shape : forall u i,
  extractConversationId u = Some i -> i <> EmptyString /\ all_id_chars i = true.
Proof.
  induction u as [|c u IH]; intros i H; cbn [extractConversationId] in H.
  - discriminate.
  - destruct (route_alt "c" (String c u)) eqn:E1.
    + inversion H; subst. eapply route_alt_chars; eauto.
    + destruct (route_alt "g" (String c u)) eqn:E2.
      * inversion H; subst. eapply route_alt_chars; eauto.
      * eapply IH; eauto.
Qed.

Lemma conversation_id_shape_witness :
  Some "abc-123" <> Some EmptyString /\ all_id_chars "abc-123" = true.
Proof.
  destruct (conversation_id_shape "https://chatgpt.com/g/abc-123?x=1" "abc-123"
              ltac:(vm_compute; reflexivity)) as [H1 H2].
  split; [congruence|exact H2].
Defined.

Lemma id_run_app : forall s c r, is_id_char c = false -> id_run (s ++ String c r) = id_run s.
Proof.
  induction s as [|a s IH]; intros c r Hc; cbn.
  - rewrite Hc. reflexivity.
  - destruct (is_id_char a); [rewrite IH by exact Hc|]; reflexivity.
Qed.

Lemma route_alt_app : forall k s c r, (3 <= String.length s)%nat -> is_id_char c = false ->
  route_alt k (s ++ String c r) = route_alt k s.
Proof.
  intros k s c r Hl Hc.
  destruct s as [|a [|b [|c' rest]]]; cbn in Hl; try lia.
  cbn [append route_alt]. rewrite id_run_app by exact Hc. reflexivity.
Qed.

Lemma route_alt_len : forall k s i, route_alt k s = Some i -> (3 <= String.length s)%nat.
Proof.
  intros k s i H. destruct s as [|a [|b [|c rest]]]; try discriminate. cbn. lia.
Qed.

Lemma extract_len : forall u i, extractConversationId u = Some i -> (3 <= String.length u)%nat.
Proof.
  induction u as [|c u IH]; intros i H; cbn [extractConversationId] in H; [discriminate|].
  destruct (route_alt "c" (String c u)) eqn:E1; [eapply route_alt_len; eauto|].
  destruct (route_alt "g" (String c u)) eqn:E2; [eapply route_alt_len; eauto|].
  cbn. specialize (IH i H). lia.
Qed.

(** Appending anything that starts with a character outside
    [a-zA-Z0-9-] (a query string, a fragment, a further path segment) to a
    location that carries a conversation identifier leaves the extracted
    identifier unchanged. *)
Theorem conversation_id_suffix_stable : forall u i c r,
  extractConversationId u = Some i -> is_id_char c = false ->
  extractConversationId (u ++ String c r) = Some i.
Proof.
  induction u as [|a u IH]; intros i c r H Hc; [discriminate|].
  pose proof (extract_len _ _ H) as Hl.
  change (String a u ++ String c r) with (String a (u ++ String c r)).
  cbn [extractConversationId] in H |- *.
  change (String a (u ++ String c r)) with (String a u ++ String c r).
  rewrite !route_alt_app by assumption.
  destruct (route_alt "c" (String a u)); [exact H|].
  destruct (route_alt "g" (String a u)); [exact H|].
  apply IH; assumption.
Qed.

Lemma conversation_id_suffix_stable_witness :
  extractConversationId ("https://chatgpt.com/c/abc123" ++ "?model=gpt-4o") = Some "abc123".
Proof.
  apply (conversation_id_suffix_stable "https://chatgpt.com/c/abc123" "abc123" "?" "model=gpt-4o").
  - vm_compute. reflexivity.
  - reflexivity.
Defined.

End RecoveryExtras.

Module ConvUrlFacts.
Import JsString Completion ConvUrl.






End ConvUrlFacts.


Module MonitorFacts.
Import Completion Monitor.

Fixpoint no_adj_dup (l : list string) : bool :=
  match l with
  | a :: ((b :: _) as t) => negb (String.eqb a b) && no_adj_dup t
  | _ => true
  end.

Fixpoint last_opt (l : list string) : option string :=
  match l with
  | [] => None
  | [a] => Some a
  | _ :: t => last_opt t
  end.

Lemma no_adj_dup_snoc : forall l m,
  no_adj_dup l = true -> last_opt l <> Some m -> no_adj_dup (l ++ [m]) = true.
Proof.
  induction l as [|a [|b t] IH]; intros m H Hl; cbn in *.
  - reflexivity.
  - rewrite andb_true_r. apply negb_true_iff, String.eqb_neq. congruence.
  - apply andb_true_iff in H as [H1 H2]. rewrite H1. cbn. apply IH; assumption.
Qed.

Lemma last_opt_snoc : forall l m, last_opt (l ++ [m]) = Some m.
Proof.
  induction l as [|a [|b t] IH]; intros m; cbn in *; [reflexivity|reflexivity|].
  apply IH.
Qed.

Definition log_inv (s : MState) : Prop :=
  lastMessage s = last_opt (logged s) /\ no_adj_dup (logged s) = true /\
  Forall (fun m => m <> EmptyString) (logged s).

Lemma log_inv_step : forall s s', mstep s s' -> log_inv s -> log_inv s'.
Proof.
  intros s s' Hs (Hl & Hd & Hf). destruct Hs as [s|s next Hp|s].
  - unfold tick. destruct (stopped s || pending s); [split; auto|].
    split; [exact Hl|split; assumption].
  - unfold read_done. destruct next as [m|]; [|split; [exact Hl|split; assumption]].
    destruct (truthy (Some m) && negb (opt_eqb (Some m) (lastMessage s))) eqn:E;
      [|split; [exact Hl|split; assumption]].
    apply andb_true_iff in E as [Et Eq]. cbn in Et, Eq.
    split; [cbn; symmetry; apply last_opt_snoc|split].
    + cbn. apply no_adj_dup_snoc; [exact Hd|]. rewrite <- Hl. intros Hm. rewrite Hm in Eq.
      cbn in Eq. rewrite String.eqb_refl in Eq. discriminate.
    + cbn. apply Forall_app. split; [exact Hf|]. constructor; [|constructor].
      intros ->. discriminate.
  - unfold stop. destruct (stopped s); [split; auto|]. split; [exact Hl|split; assumption].
Qed.

(** Whatever the order of timer ticks, status reads and calls to stop,
    the monitor never logs the same status twice in a row and never logs
    an empty status; the last status logged is the one it remembers. *)
Theorem monitor_no_repeated_status : forall s,
  mreach monitor_init s ->
  no_adj_dup (logged s) = true /\ Forall (fun m => m <> EmptyString) (logged s) /\
  lastMessage s = last_opt (logged s).
Proof.
  intros s H.
  assert (Hi : log_inv s).
  { assert (H0 : log_inv monitor_init) by (split; [reflexivity|split; [reflexivity|constructor]]).
    revert H0. unfold mreach in H. induction H as [x|x y z Hxy Hyz IH]; intros H0; [exact H0|].
    apply IH. eapply log_inv_step; eauto. }
  destruct Hi as (Hl & Hd & Hf). auto.
Qed.

Definition after_two_reads : MState :=
  read_done (tick (read_done (tick monitor_init) (Some "Thinking"%string))) (Some "Thinking"%string).

Lemma monitor_no_repeated_status_witness :
  no_adj_dup (logged after_two_reads) = true.
Proof.
  apply (monitor_no_repeated_status after_two_reads).
  unfold mreach, after_two_reads.
  eapply rt1n_trans; [apply mstep_tick|].
  eapply rt1n_trans; [apply (mstep_done _ (Some "Thinking"%string)); reflexivity|].
  eapply rt1n_trans; [apply mstep_tick|].
  eapply rt1n_trans; [apply (mstep_done _ (Some "Thinking"%string)); reflexivity|].
  apply rt1n_refl.
Defined.

Definition after_stop (s x : MState) : Prop :=
  stopped x = true /\
  ((logged x = logged s /\ (pending x = true -> pending s = true)) \/
   (pending s = true /\ pending x = false /\ exists m, logged x = logged s ++ [m])).

Lemma after_stop_step : forall s x y, after_stop s x -> mstep x y -> after_stop s y.
Proof.
  intros s x y [Hs Hx] Hxy. destruct Hxy as [x|x next Hp|x].
  - unfold tick. rewrite Hs. split; assumption.
  - assert (Hps : pending s = true) by (destruct Hx as [[_ H]|[H _]]; auto).
    assert (Hlx : logged x = logged s)
      by (destruct Hx as [[H _]|[_ [H _]]]; [exact H|congruence]).
    unfold read_done. destruct next as [m|].
    + destruct (truthy (Some m) && negb (opt_eqb (Some m) (lastMessage x))); cbn;
        split; try exact Hs.
      * right. split; [exact Hps|split; [reflexivity|exists m; rewrite Hlx; reflexivity]].
      * left. split; [exact Hlx|discriminate].
    + cbn. split; [exact Hs|left; split; [exact Hlx|discriminate]].
  - unfold stop. rewrite Hs. split; assumption.
Qed.

Lemma after_stop_reach : forall x y, clos_refl_trans_1n _ mstep x y ->
  forall s, after_stop s x -> after_stop s y.
Proof.
  intros x y H. induction H as [x|x y z Hxy Hyz IH]; intros s Hx; [exact Hx|].
  apply IH. eapply after_stop_step; eauto.
Qed.

(** Once the monitor is stopped it starts no new status read, so at most
    one more status line appears: the one of a read that was already in
    flight when stop was called, and none if no read was pending then. *)
Theorem monitor_stop_at_most_one_more_line : forall s s',
  stopped s = true -> mreach s s' ->
  logged s' = logged s \/ (pending s = true /\ exists m, logged s' = logged s ++ [m]).
Proof.
  intros s s' Hs H.
  destruct (after_stop_reach s s' H s (conj Hs (or_introl (conj eq_refl (fun h => h)))))
    as [_ [[Hl _]|[Hp [_ Hm]]]].
  - left. exact Hl.
  - right. split; assumption.
Qed.

Definition stopped_mid_read : MState := stop (tick monitor_init).

Lemma monitor_stop_at_most_one_more_line_witness :
  logged (read_done stopped_mid_read (Some "Thinking"%string)) = logged stopped_mid_read \/
  (pending stopped_mid_read = true /\
   exists m, logged (read_done stopped_mid_read (Some "Thinking"%string))
             = logged stopped_mid_read ++ [m]).
Proof.
  apply (monitor_stop_at_most_one_more_line stopped_mid_read).
  - reflexivity.
  - eapply rt1n_trans; [apply (mstep_done _ (Some "Thinking"%string)); reflexivity|].
    apply rt1n_refl.
Defined.

End MonitorFacts.


Module RunFacts.
Import JsString Names RunMode.

Definition effect_eq_dec : forall a b : Effect, {a = b} + {a <> b}.
Proof. decide equality. Defined.

Ltac run_cases env :=
  unfold runBrowserMode;
  destruct (String.eqb _ EmptyString); cbn;
  destruct (mkdtemp_ok env); cbn;
  destruct (lock_ok env); cbn;
  destruct (launch_ok env); cbn;
  destruct (body env); destruct (disconnected env); destruct (hooks_ok env);
  destruct (keepBrowser env); cbn.

Ltac ws_cases :=
  repeat match goal with |- context [isWebSocketClosureError ?m] =>
    destruct (isWebSocketClosureError m) end; cbn.

(** The browser lock is released (once) exactly when Chrome was launched,
    and the temporary profile is removed exactly when Chrome was launched and
    keepBrowser is off: when launchChrome rejects, the lock already taken
    and the profile directory already created are left behind. *)
Theorem run_cleanup_lock_and_profile : forall env,
  let eff := snd (runBrowserMode env) in
  (In ReleaseLock eff <-> In LaunchChrome eff) /\
  (count_occ effect_eq_dec eff ReleaseLock <= 1)%nat /\
  (In RemoveProfile eff <-> In LaunchChrome eff /\ keepBrowser env = false) /\
  (In TakeLock eff -> ~ In LaunchChrome eff -> ~ In ReleaseLock eff /\ ~ In RemoveProfile eff).
Proof.
  intros env. cbn zeta. run_cases env; ws_cases; intuition (try discriminate; try lia).
Qed.

Definition launch_fails : RunEnv :=
  {| prompt := Some "hello"%string; mkdtemp_ok := true; lock_ok := true;
     launch_ok := false; hooks_ok := true; body := Answered "hi"%string;
     disconnected := false; keepBrowser := false |}.

Lemma run_cleanup_lock_and_profile_witness :
  In TakeLock (snd (runBrowserMode launch_fails)) /\
  ~ In LaunchChrome (snd (runBrowserMode launch_fails)) /\
  ~ In ReleaseLock (snd (runBrowserMode launch_fails)) /\
  ~ In RemoveProfile (snd (runBrowserMode launch_fails)).
Proof.
  destruct (run_cleanup_lock_and_profile launch_fails) as (_ & _ & _ & H).
  assert (Ht : In TakeLock (snd (runBrowserMode launch_fails))) by (vm_compute; tauto).
  assert (Hl : ~ In LaunchChrome (snd (runBrowserMode launch_fails)))
    by (vm_compute; intros [h|[h|h]]; [discriminate|discriminate|exact h]).
  split; [exact Ht|split; [exact Hl|exact (H Ht Hl)]].
Defined.










End RunFacts.
